(** * Rotary-encoder quadrature decoder and position tracker

    Shallow embedding of the rotary-encoder part of
    [prog_calculatorOneRing.py]: the two transition tables, the range
    policies [_wrap] and [_bound], the listener trigger and the class
    [Rotary] ([__init__], [set], [value], [reset], [close],
    [add_listener], [remove_listener], [_process_rotary_pins]); of the
    rest of that program, the lookup tables, the body of the main loop
    and the display callbacks; of [uidToString] in [testReadRFID.py];
    and of the pin loop of [StepMotor.py].

    Python integers are unbounded, so they are modelled by [Z]; Python's
    [//] and [%] are floor division and its remainder, which is what
    [Z.div] and [Z.modulo] compute for a non-zero divisor. Division by
    zero raises [ZeroDivisionError] in Python and is modelled as such. *)

From Stdlib Require Import ZArith List Bool Lia.
From Stdlib Require String Ascii Decimal Hexadecimal DecimalString.
From Stdlib Require DecimalZ DecimalPos.
Import ListNotations.
Local Open Scope Z_scope.

(** ** Constants and transition tables *)

Definition _DIR_CW : Z := 0x10.
Definition _DIR_CCW : Z := 0x20.

Definition _R_START : Z := 0x0.
Definition _R_CW_1 : Z := 0x1.
Definition _R_CW_2 : Z := 0x2.
Definition _R_CW_3 : Z := 0x3.
Definition _R_CCW_1 : Z := 0x4.
Definition _R_CCW_2 : Z := 0x5.
Definition _R_CCW_3 : Z := 0x6.
Definition _R_ILLEGAL : Z := 0x7.

(** Rows are indexed by the current state, columns by the CLK/DT sample
    00, 01, 10, 11. *)
Definition _transition_table : list (list Z) :=
  [ [_R_START; _R_CCW_1; _R_CW_1; _R_START];                     (* _R_START *)
    [_R_CW_2; _R_START; _R_CW_1; _R_START];                      (* _R_CW_1 *)
    [_R_CW_2; _R_CW_3; _R_CW_1; _R_START];                       (* _R_CW_2 *)
    [_R_CW_2; _R_CW_3; _R_START; Z.lor _R_START _DIR_CW];        (* _R_CW_3 *)
    [_R_CCW_2; _R_CCW_1; _R_START; _R_START];                    (* _R_CCW_1 *)
    [_R_CCW_2; _R_CCW_1; _R_CCW_3; _R_START];                    (* _R_CCW_2 *)
    [_R_CCW_2; _R_START; _R_CCW_3; Z.lor _R_START _DIR_CCW];     (* _R_CCW_3 *)
    [_R_START; _R_START; _R_START; _R_START] ].                  (* _R_ILLEGAL *)

Definition _transition_table_half_step : list (list Z) :=
  [ [_R_CW_3; _R_CW_2; _R_CW_1; _R_START];
    [Z.lor _R_CW_3 _DIR_CCW; _R_START; _R_CW_1; _R_START];
    [Z.lor _R_CW_3 _DIR_CW; _R_CW_2; _R_START; _R_START];
    [_R_CW_3; _R_CCW_2; _R_CCW_1; _R_START];
    [_R_CW_3; _R_CW_2; _R_CCW_1; Z.lor _R_START _DIR_CW];
    [_R_CW_3; _R_CCW_2; _R_CW_3; Z.lor _R_START _DIR_CCW];
    [_R_START; _R_START; _R_START; _R_START];
    [_R_START; _R_START; _R_START; _R_START] ].

Definition _STATE_MASK : Z := 0x07.
Definition _DIR_MASK : Z := 0x30.

(** [table[i][j]] for indices that are in range; [table_index_in_range]
    below shows that the decoder only ever uses such indices, so the
    default is never returned. *)
Definition table_get (table : list (list Z)) (i j : Z) : Z :=
  nth (Z.to_nat j) (nth (Z.to_nat i) table []) 0.

Definition table_get_error (table : list (list Z)) (i j : Z) : option Z :=
  match nth_error table (Z.to_nat i) with
  | Some row => nth_error row (Z.to_nat j)
  | None => None
  end.

(** ** Exceptions *)

Inductive exn : Type :=
| ZeroDivisionError
| OtherError (tag : nat).

(** The outcome of a statement that works on a mutable store [S]: the
    store it leaves behind, and the exception it raised if it raised
    one. A raise does not roll the store back. *)
Inductive outcome (S : Type) : Type :=
| Done (s : S)
| Raise (e : exn) (s : S).
Arguments Done {S} s.
Arguments Raise {S} e s.

Definition store_of {S : Type} (o : outcome S) : S :=
  match o with
  | Done s => s
  | Raise _ s => s
  end.

Definition raised {S : Type} (o : outcome S) : option exn :=
  match o with
  | Done _ => None
  | Raise e _ => Some e
  end.

(** ** Range policies *)

Definition _wrap (value incr lower_bound upper_bound : Z) : exn + Z :=
  let range := upper_bound - lower_bound + 1 in
  let value := value + incr in
  if range =? 0 then inl ZeroDivisionError
  else
    let value :=
      if value <? lower_bound
      then value + range * ((lower_bound - value) / range + 1)
      else value in
    inr (lower_bound + (value - lower_bound) mod range).

Definition _bound (value incr lower_bound upper_bound : Z) : Z :=
  Z.min upper_bound (Z.max lower_bound (value + incr)).

(** ** The tracker object *)

(** A listener is a zero-argument callback. What it does is visible only
    through the part of the program state outside the tracker, the
    [World]; it either returns or raises, and in both cases leaves a
    world behind. A listener that calls back into the tracker that is
    running it is not covered. *)
Definition Listener (World : Type) : Type := World -> outcome World.

(** The instance attributes assigned by [Rotary.__init__], together with
    [_irq], which records whether the hardware layer of [RotaryIRQ] has
    the edge handler attached to the CLK and DT pins. *)
Record Rotary (World : Type) : Type := mkRotary {
  _min_val : Z;
  _max_val : Z;
  _incr : Z;
  _reverse : Z;
  _range_mode : Z;
  _value : Z;
  _state : Z;
  _half_step : bool;
  _invert : bool;
  _listener : list (Listener World);
  _irq : bool
}.
Arguments mkRotary {World}.
Arguments _min_val {World}.
Arguments _max_val {World}.
Arguments _incr {World}.
Arguments _reverse {World}.
Arguments _range_mode {World}.
Arguments _value {World}.
Arguments _state {World}.
Arguments _half_step {World}.
Arguments _invert {World}.
Arguments _listener {World}.
Arguments _irq {World}.

(** [for listener in listeners: listener()]: the first listener that
    raises ends the loop. *)
Fixpoint call_each {World : Type} (listeners : list (Listener World))
    (w : World) : outcome World :=
  match listeners with
  | [] => Done w
  | listener :: rest =>
      match listener w with
      | Done w' => call_each rest w'
      | Raise e w' => Raise e w'
      end
  end.

Definition _trigger {World : Type} (rotary_instance : Rotary World)
    (w : World) : outcome World :=
  call_each (_listener rotary_instance) w.

Module Rotary.
Section Methods.
Context {World : Type}.
Local Abbreviation self := (Rotary World).

Definition RANGE_UNBOUNDED : Z := 1.
Definition RANGE_WRAP : Z := 2.
Definition RANGE_BOUNDED : Z := 3.

Definition reverse_sign (reverse : bool) : Z := if reverse then -1 else 1.

(** [Rotary.__init__]; the handler is not attached yet. *)
Definition __init__ (min_val max_val incr : Z) (reverse : bool)
    (range_mode : Z) (half_step invert : bool) : self :=
  mkRotary min_val max_val incr (reverse_sign reverse) range_mode
           min_val _R_START half_step invert [] false.

Definition _hal_enable_irq (r : self) : self :=
  mkRotary (_min_val r) (_max_val r) (_incr r) (_reverse r) (_range_mode r)
           (_value r) (_state r) (_half_step r) (_invert r) (_listener r) true.

Definition _hal_disable_irq (r : self) : self :=
  mkRotary (_min_val r) (_max_val r) (_incr r) (_reverse r) (_range_mode r)
           (_value r) (_state r) (_half_step r) (_invert r) (_listener r) false.

Definition or_keep {A : Type} (new : option A) (old : A) : A :=
  match new with
  | Some a => a
  | None => old
  end.

(** [set]: every argument defaults to [None], which leaves the
    attribute as it is. *)
Definition set (value min_val incr max_val : option Z)
    (reverse : option bool) (range_mode : option Z) (r : self) : self :=
  let r := _hal_disable_irq r in
  let r :=
    mkRotary (or_keep min_val (_min_val r))
             (or_keep max_val (_max_val r))
             (or_keep incr (_incr r))
             (or_keep (option_map reverse_sign reverse) (_reverse r))
             (or_keep range_mode (_range_mode r))
             (or_keep value (_value r))
             _R_START
             (_half_step r) (_invert r) (_listener r) (_irq r) in
  _hal_enable_irq r.

Definition value (r : self) : Z := _value r.

Definition reset (r : self) : self :=
  mkRotary (_min_val r) (_max_val r) (_incr r) (_reverse r) (_range_mode r)
           0 (_state r) (_half_step r) (_invert r) (_listener r) (_irq r).

Definition close (r : self) : self := _hal_disable_irq r.

Definition add_listener (l : Listener World) (r : self) : self :=
  mkRotary (_min_val r) (_max_val r) (_incr r) (_reverse r) (_range_mode r)
           (_value r) (_state r) (_half_step r) (_invert r)
           (_listener r ++ [l]) (_irq r).

Definition with_state (state : Z) (r : self) : self :=
  mkRotary (_min_val r) (_max_val r) (_incr r) (_reverse r) (_range_mode r)
           (_value r) state (_half_step r) (_invert r) (_listener r) (_irq r).

Definition with_value (v : Z) (r : self) : self :=
  mkRotary (_min_val r) (_max_val r) (_incr r) (_reverse r) (_range_mode r)
           v (_state r) (_half_step r) (_invert r) (_listener r) (_irq r).

(** The two-bit sample read from the pins, [(clk << 1) | dt], after the
    optional inversion [~clk_dt_pins & 0x03]. [Pin.value()] is 0 or 1. *)
Definition read_pins (invert clk dt : bool) : Z :=
  let clk_dt_pins := Z.lor (Z.shiftl (Z.b2z clk) 1) (Z.b2z dt) in
  if invert then Z.land (Z.lnot clk_dt_pins) 0x03 else clk_dt_pins.

(** The decoder step: the next packed state. *)
Definition next_state (half_step : bool) (state clk_dt_pins : Z) : Z :=
  if half_step
  then table_get _transition_table_half_step
                 (Z.land state _STATE_MASK) clk_dt_pins
  else table_get _transition_table (Z.land state _STATE_MASK) clk_dt_pins.

(** The signed step that a packed state stands for. *)
Definition step_of (state incr reverse : Z) : Z :=
  let direction := Z.land state _DIR_MASK in
  let incr :=
    if direction =? _DIR_CW then incr
    else if direction =? _DIR_CCW then - incr
    else 0 in
  incr * reverse.

(** [_process_rotary_pins], the handler of an edge on either pin; [clk]
    and [dt] are the levels the hardware layer reads during the call.
    The state is assigned before the range policy runs, so it is kept
    when [_wrap] raises; the listeners run inside [try: ... except:
    pass]. *)
Definition _process_rotary_pins (clk dt : bool) (r : self) (w : World)
    : outcome (self * World) :=
  let old_value := _value r in
  let clk_dt_pins := read_pins (_invert r) clk dt in
  let r := with_state (next_state (_half_step r) (_state r) clk_dt_pins) r in
  let incr := step_of (_state r) (_incr r) (_reverse r) in
  let new_value :=
    if _range_mode r =? RANGE_WRAP
    then _wrap (_value r) incr (_min_val r) (_max_val r)
    else if _range_mode r =? RANGE_BOUNDED
    then inr (_bound (_value r) incr (_min_val r) (_max_val r))
    else inr (_value r + incr) in
  match new_value with
  | inl e => Raise e (r, w)
  | inr v =>
      let r := with_value v r in
      if negb (old_value =? _value r)
         && negb (Nat.eqb (length (_listener r)) 0)
      then Done (r, store_of (_trigger r w))
      else Done (r, w)
  end.

(** The tracker and the world that an edge leaves behind, whether or not
    the handler raised: an exception in the handler ends that call only,
    and the next edge is delivered to the same object. *)
Definition on_edge (sample : bool * bool) (rw : self * World)
    : self * World :=
  store_of (_process_rotary_pins (fst sample) (snd sample) (fst rw) (snd rw)).

(** The stores after each edge of a sequence of pin levels. *)
Fixpoint run (samples : list (bool * bool)) (rw : self * World)
    : list (self * World) :=
  match samples with
  | [] => []
  | s :: rest => on_edge s rw :: run rest (on_edge s rw)
  end.

(** The store after the whole sequence. *)
Definition run_end (samples : list (bool * bool)) (rw : self * World)
    : self * World :=
  fold_left (fun acc s => on_edge s acc) samples rw.

(** The tracked value after each edge minus the value before it. *)
Fixpoint deltas (samples : list (bool * bool)) (rw : self * World)
    : list Z :=
  match samples with
  | [] => []
  | s :: rest =>
      (_value (fst (on_edge s rw)) - _value (fst rw))
        :: deltas rest (on_edge s rw)
  end.

(** The same tracker with the direction sense that [__init__] or [set]
    stores for the flag [reverse]. *)
Definition with_reverse (reverse : bool) (r : self) : self :=
  mkRotary (_min_val r) (_max_val r) (_incr r) (reverse_sign reverse)
           (_range_mode r) (_value r) (_state r) (_half_step r) (_invert r)
           (_listener r) (_irq r).

(** The calls that the rest of the program and the pins make on a
    tracker, and what each does to the tracker and to the world. Only
    the edge handler is given the world: the other methods have no
    statement that calls a listener or that can raise. *)
Inductive call : Type :=
| Edge (clk dt : bool)
| Set_ (value min_val incr max_val : option Z) (reverse : option bool)
       (range_mode : option Z)
| Reset
| Close
| AddListener (l : Listener World).

Definition perform (c : call) (rw : self * World) : outcome (self * World) :=
  match c with
  | Edge clk dt => _process_rotary_pins clk dt (fst rw) (snd rw)
  | Set_ value min_val incr max_val reverse range_mode =>
      Done (set value min_val incr max_val reverse range_mode (fst rw), snd rw)
  | Reset => Done (reset (fst rw), snd rw)
  | Close => Done (close (fst rw), snd rw)
  | AddListener l => Done (add_listener l (fst rw), snd rw)
  end.

End Methods.
End Rotary.

(** [RotaryIRQ.__init__]: the base constructor, then the handler is
    attached to both pins. The pin numbers and the pull-up choice only
    select the hardware. *)
Definition RotaryIRQ {World : Type} (min_val max_val incr : Z)
    (reverse : bool) (range_mode : Z) (half_step invert : bool)
    : Rotary World :=
  Rotary._hal_enable_irq
    (Rotary.__init__ min_val max_val incr reverse range_mode half_step invert).

(** The two knobs of the program. *)
Definition r_l : Rotary unit :=
  RotaryIRQ 1 20 1 false Rotary.RANGE_BOUNDED false false.

Definition r_r : Rotary unit :=
  RotaryIRQ 0 6 1 false Rotary.RANGE_BOUNDED false false.

(** A knob with the default arguments of [RotaryIRQ]. *)
Definition plain_knob : Rotary unit :=
  RotaryIRQ 0 10 1 false Rotary.RANGE_UNBOUNDED false false.

(** ** Vocabulary of the properties *)

(** The three-valued direction that [_process_rotary_pins] reads off the
    packed state with [_DIR_MASK]. *)
Inductive DirectionEvent : Type :=
| NoDirection
| Clockwise
| CounterClockwise.

Definition event_of (state : Z) : DirectionEvent :=
  let direction := Z.land state _DIR_MASK in
  if direction =? _DIR_CW then Clockwise
  else if direction =? _DIR_CCW then CounterClockwise
  else NoDirection.

Definition state_bits (state : Z) : Z := Z.land state _STATE_MASK.

Definition DirectionEvent_eq_dec (a b : DirectionEvent) : {a = b} + {a <> b}.
Proof. decide equality. Defined.

(** The sample on which the full-step table enters a state: every entry
    of the table whose state bits are a sub-state of a rotation sits in
    the column given here ([entry_sample_sound]); the rest position of
    the lines is 11. *)
Definition entry_sample (bits : Z) : Z :=
  if bits =? _R_CW_1 then 2
  else if bits =? _R_CW_2 then 0
  else if bits =? _R_CW_3 then 1
  else if bits =? _R_CCW_1 then 1
  else if bits =? _R_CCW_2 then 0
  else if bits =? _R_CCW_3 then 2
  else 3.

(** Two samples that differ in both lines: the lines cannot get from one
    to the other without passing through an intermediate position. *)
Definition both_lines_differ (a b : Z) : bool := Z.lxor a b =? 3.



(** The sample that the decoder of [r] looks up for the pin levels [s]. *)
Definition seen {World : Type} (r : Rotary World) (s : bool * bool) : Z :=
  Rotary.read_pins (_invert r) (fst s) (snd s).

(** The decoder state and the signed step of the edge that finds the
    tracker [r] and reads the pin levels [clk] and [dt]. *)
Definition edge_state {World : Type} (r : Rotary World) (clk dt : bool) : Z :=
  Rotary.next_state (_half_step r) (_state r)
                    (Rotary.read_pins (_invert r) clk dt).

Definition edge_incr {World : Type} (r : Rotary World) (clk dt : bool) : Z :=
  Rotary.step_of (edge_state r clk dt) (_incr r) (_reverse r).

(** The world after the listeners have been triggered, or the world as
    it was when the value did not change or nobody listens. *)
Definition world_after {World : Type} (r : Rotary World) (w : World)
    (new_value : Z) : World :=
  if negb (_value r =? new_value)
     && negb (Nat.eqb (length (_listener r)) 0)
  then store_of (call_each (_listener r) w)
  else w.

(** Listeners whose only effect is an entry in a call log: [logs k]
    appends [k] and returns, [fails k] appends [k] and raises. *)
Definition logs (k : nat) : Listener (list nat) :=
  fun w => Done (w ++ [k]%nat).

Definition fails (k : nat) : Listener (list nat) :=
  fun w => Raise (OtherError k) (w ++ [k]%nat).

(** A default knob with the given listeners added in order. *)
Definition knob_with (listeners : list (Listener (list nat)))
    : Rotary (list nat) :=
  fold_left (fun r l => Rotary.add_listener l r) listeners
            (RotaryIRQ 0 10 1 false Rotary.RANGE_UNBOUNDED false false).

(** The canonical clockwise detent: CLK/DT = 10, 00, 01, 11. *)
Definition cw_detent : list (bool * bool) :=
  [(true, false); (false, false); (false, true); (true, true)].

(** The counter-clockwise detent: CLK/DT = 01, 00, 10, 11. *)
Definition ccw_detent : list (bool * bool) :=
  [(false, true); (false, false); (true, false); (true, true)].

(** ** Further vocabulary *)

(** [n] detents in a row. *)
Definition detents (n : nat) (detent : list (bool * bool))
    : list (bool * bool) :=
  concat (repeat detent n).

(** The events that a run reports, edge by edge. *)
Definition events_of {World : Type} (samples : list (bool * bool))
    (rw : Rotary World * World) : list DirectionEvent :=
  map (fun rw' => event_of (_state (fst rw'))) (Rotary.run samples rw).

(** The value that the range mode of [r] makes of a signed step, as in
    the three branches of [_process_rotary_pins]. *)
Definition apply_range {World : Type} (r : Rotary World) (incr : Z)
    : exn + Z :=
  if _range_mode r =? Rotary.RANGE_WRAP
  then _wrap (_value r) incr (_min_val r) (_max_val r)
  else if _range_mode r =? Rotary.RANGE_BOUNDED
  then inr (_bound (_value r) incr (_min_val r) (_max_val r))
  else inr (_value r + incr).

(** The packed decoder states that a sequence of pin levels leads
    through: the part of a run that neither the range policy nor the
    listeners can influence. *)
Fixpoint decode (half_step invert : bool) (state : Z)
    (samples : list (bool * bool)) : list Z :=
  match samples with
  | [] => []
  | s :: rest =>
      let state' :=
        Rotary.next_state half_step state
                          (Rotary.read_pins invert (fst s) (snd s)) in
      state' :: decode half_step invert state' rest
  end.

(** [remove_listener]. Python compares callbacks by identity; [same] is
    that comparison. [l not in self._listener] raises [ValueError], and
    [list.remove] deletes the first entry that compares equal. *)
Inductive ValueError : Type :=
| not_an_installed_listener.

Fixpoint list_remove {A : Type} (same : A -> A -> bool) (x : A) (l : list A)
    : list A :=
  match l with
  | [] => []
  | y :: rest => if same x y then rest else y :: list_remove same x rest
  end.

Definition remove_listener {World : Type}
    (same : Listener World -> Listener World -> bool)
    (l : Listener World) (r : Rotary World) : ValueError + Rotary World :=
  if negb (existsb (same l) (_listener r))
  then inl not_an_installed_listener
  else inr (mkRotary (_min_val r) (_max_val r) (_incr r) (_reverse r)
                     (_range_mode r) (_value r) (_state r) (_half_step r)
                     (_invert r) (list_remove same l (_listener r))
                     (_irq r)).

(** A comparison for the logging listeners: they are told apart by what
    they do to the empty log. *)
Definition same_on_empty_log (a b : Listener (list nat)) : bool :=
  match a [], b [] with
  | Done x, Done y => if list_eq_dec Nat.eq_dec x y then true else false
  | Raise _ x, Raise _ y => if list_eq_dec Nat.eq_dec x y then true else false
  | _, _ => false
  end.

(** ** The card reader: [uidToString] of [testReadRFID.py] *)

Module RFID.
Import String Ascii.
Local Open Scope string_scope.
Local Open Scope Z_scope.

(** The digits of [%X]: upper-case hexadecimal. *)
Fixpoint upper_hex (u : Hexadecimal.uint) : string :=
  match u with
  | Hexadecimal.Nil => EmptyString
  | Hexadecimal.D0 u => String "0" (upper_hex u)
  | Hexadecimal.D1 u => String "1" (upper_hex u)
  | Hexadecimal.D2 u => String "2" (upper_hex u)
  | Hexadecimal.D3 u => String "3" (upper_hex u)
  | Hexadecimal.D4 u => String "4" (upper_hex u)
  | Hexadecimal.D5 u => String "5" (upper_hex u)
  | Hexadecimal.D6 u => String "6" (upper_hex u)
  | Hexadecimal.D7 u => String "7" (upper_hex u)
  | Hexadecimal.D8 u => String "8" (upper_hex u)
  | Hexadecimal.D9 u => String "9" (upper_hex u)
  | Hexadecimal.Da u => String "A" (upper_hex u)
  | Hexadecimal.Db u => String "B" (upper_hex u)
  | Hexadecimal.Dc u => String "C" (upper_hex u)
  | Hexadecimal.Dd u => String "D" (upper_hex u)
  | Hexadecimal.De u => String "E" (upper_hex u)
  | Hexadecimal.Df u => String "F" (upper_hex u)
  end.

(** ["%X" % i] for an integer [i]. *)
Definition format_X (i : Z) : string :=
  match i with
  | Z0 => "0"
  | Zpos p => upper_hex (Pos.to_hex_uint p)
  | Zneg p => String "-" (upper_hex (Pos.to_hex_uint p))
  end.

(** ["%02X" % i]: padded with zeros to two characters; a sign counts as
    a character, so only the one-digit numbers from 0 to 15 are padded. *)
Definition format_02X (i : Z) : string :=
  let s := format_X i in
  if (String.length s <? 2)%nat then String "0" s else s.

Definition uidToString (uid : list Z) : string :=
  fold_left (fun mystring i => format_02X i ++ mystring) uid EmptyString.

(** Reading the string back, to state that no information is lost: the
    value of a hexadecimal digit, the bytes of a string of digit pairs,
    and the identifier that these bytes stand for. *)
Definition hex_value (c : ascii) : option Z :=
  let n := Z.of_nat (nat_of_ascii c) in
  if (48 <=? n) && (n <=? 57) then Some (n - 48)
  else if (65 <=? n) && (n <=? 70) then Some (n - 55)
  else None.

Fixpoint parse_pairs (s : string) : option (list Z) :=
  match s with
  | EmptyString => Some []
  | String a (String b rest) =>
      match hex_value a, hex_value b, parse_pairs rest with
      | Some x, Some y, Some l => Some (16 * x + y :: l)
      | _, _, _ => None
      end
  | String _ EmptyString => None
  end.

Definition parse_uid (s : string) : option (list Z) :=
  option_map (@rev Z) (parse_pairs s).

Definition is_byte (b : Z) : bool := (0 <=? b) && (b <? 256).

(** The check that is run over the 256 bytes. *)
Definition byte_round_trip (b : Z) : bool :=
  match format_02X b with
  | String c1 (String c2 EmptyString) =>
      match hex_value c1, hex_value c2 with
      | Some x, Some y => 16 * x + y =? b
      | _, _ => false
      end
  | _ => false
  end.

End RFID.

(** ** Lookups that can fail *)

(** [KeyError] of a dictionary lookup and [IndexError] of a list or
    string subscript. *)
Inductive py_error : Type :=
| KeyError (key : String.string)
| IndexError.

(** What a sequence of statements leaves when it completes and when one
    of them raises. *)
Inductive attempt (S : Type) : Type :=
| Completed (s : S)
| Failed (e : py_error) (s : S).
Arguments Completed {S} s.
Arguments Failed {S} e s.

(** [l[i]], with Python's negative subscripts counted from the end. *)
Definition list_index {A : Type} (l : list A) (i : Z) : py_error + A :=
  let n := Z.of_nat (length l) in
  let j := if i <? 0 then i + n else i in
  if (j <? 0) || (n <=? j) then inl IndexError
  else match nth_error l (Z.to_nat j) with
       | Some x => inr x
       | None => inl IndexError
       end.

(** The level that [Pin.value(x)] drives an output pin to. *)
Definition pin_level (x : Z) : Z := if x =? 0 then 0 else 1.

(** ** The stepper motor: [StepMotor.py] *)

Module StepMotor.

(** The levels of [IN1] to [IN4], in the order of the list [pins], and
    the number of lines printed so far. *)
Record board : Type := mkBoard {
  levels : list Z;
  printed : nat
}.

Definition sequence : list (list Z) :=
  [[1; 0; 0; 0]; [0; 1; 0; 0]; [0; 0; 1; 0]; [0; 0; 0; 1]].

Fixpoint set_level (i : nat) (v : Z) (l : list Z) : list Z :=
  match l, i with
  | [], _ => []
  | _ :: rest, O => v :: rest
  | x :: rest, S i => x :: set_level i v rest
  end.

(** [for i in range(len(pins)): pins[i].value(step[i]); print(...)],
    over the indices still to come. *)
Fixpoint drive (indices : list nat) (step : list Z) (b : board)
    : attempt board :=
  match indices with
  | [] => Completed b
  | i :: rest =>
      match list_index step (Z.of_nat i) with
      | inl e => Failed e b
      | inr v =>
          drive rest step
                (mkBoard (set_level i (pin_level v) (levels b))
                         (S (printed b)))
      end
  end.

Definition apply_step (step : list Z) (b : board) : attempt board :=
  drive (seq 0 (length (levels b))) step b.

(** [for step in sequence: ...] *)
Fixpoint cycle (steps : list (list Z)) (b : board) : attempt board :=
  match steps with
  | [] => Completed b
  | step :: rest =>
      match apply_step step b with
      | Completed b' => cycle rest b'
      | Failed e b' => Failed e b'
      end
  end.

(** The first [n] rounds of [while True]. *)
Fixpoint rounds (n : nat) (b : board) : attempt board :=
  match n with
  | O => Completed b
  | S n =>
      match cycle sequence b with
      | Completed b' => rounds n b'
      | Failed e b' => Failed e b'
      end
  end.

End StepMotor.

(** ** The calculator: tables, main loop and display *)

Module Calculator.
Import String Ascii.
Local Open Scope string_scope.
Local Open Scope Z_scope.

Definition valuesDictNeutre : list (string * list string) :=
  [
    ("1", ["10000"; "10000"; "10000"; "10000"; "10000"; "10000"; "10000"]);
    ("2", ["8333"; "10000"; "10000"; "10000"; "10000"; "10000"; "10000"]);
    ("3", ["7500"; "9028"; "10000"; "10000"; "10000"; "10000"; "10000"]);
    ("4", ["6667"; "8750"; "9144"; "10000"; "10000"; "10000"; "10000"]);
    ("5", ["5833"; "8333"; "9074"; "9163"; "10000"; "10000"; "10000"]);
    ("6", ["5000"; "7778"; "8935"; "9147"; "9166"; "10000"; "10000"]);
    ("7", ["4167"; "7083"; "8704"; "9109"; "9163"; "9167"; "10000"]);
    ("8", ["3333"; "6250"; "8356"; "9032"; "9153"; "9166"; "9167"]);
    ("9", ["2500"; "5417"; "7870"; "8897"; "9131"; "9164"; "9167"]);
    ("10", ["1667"; "4583"; "7269"; "8681"; "9086"; "9158"; "9166"]);
    ("11", ["0833"; "3750"; "6574"; "8368"; "9005"; "9144"; "9165"]);
    ("12", ["0833"; "2917"; "5810"; "7951"; "8872"; "9117"; "9161"]);
    ("13", ["0833"; "2222"; "5000"; "7431"; "8673"; "9068"; "9153"]);
    ("14", ["0833"; "1667"; "4190"; "6813"; "8393"; "8987"; "9136"]);
    ("15", ["0833"; "1250"; "3426"; "6119"; "8023"; "8860"; "9106"]);
    ("16", ["0833"; "0972"; "2731"; "5378"; "7560"; "8675"; "9056"]);
    ("17", ["0833"; "0833"; "2130"; "4622"; "7010"; "8421"; "8975"]);
    ("18", ["0833"; "0833"; "1644"; "3881"; "6386"; "8089"; "8855"]);
    ("19", ["0833"; "0833"; "1296"; "3187"; "5707"; "7674"; "8683"]);
    ("20", ["0833"; "0833"; "1065"; "2569"; "5000"; "7180"; "8451"]) ].

Definition valuesDictDefav : list (string * list string) :=
  [
    ("1", ["10000"; "10000"; "10000"; "10000"; "10000"; "10000"; "10000"]);
    ("2", ["6944"; "10000"; "10000"; "10000"; "10000"; "10000"; "10000"]);
    ("3", ["5625"; "8160"; "10000"; "10000"; "10000"; "10000"; "10000"]);
    ("4", ["4444"; "7697"; "8362"; "10000"; "10000"; "10000"; "10000"]);
    ("5", ["3403"; "7037"; "8245"; "8396"; "10000"; "10000"; "10000"]);
    ("6", ["2500"; "6204"; "8017"; "8370"; "8402"; "10000"; "10000"]);
    ("7", ["1736"; "5220"; "7650"; "8305"; "8396"; "8403"; "10000"]);
    ("8", ["1111"; "4109"; "7120"; "8180"; "8380"; "8401"; "8403"]);
    ("9", ["0625"; "3137"; "6404"; "7966"; "8343"; "8398"; "8403"]);
    ("10", ["0278"; "2303"; "5567"; "7633"; "8270"; "8388"; "8402"]);
    ("11", ["0069"; "1609"; "4668"; "7167"; "8142"; "8366"; "8399"]);
    ("12", ["0069"; "1053"; "3764"; "6571"; "7937"; "8322"; "8393"]);
    ("13", ["0069"; "0648"; "2905"; "5862"; "7637"; "8245"; "8379"]);
    ("14", ["0069"; "0370"; "2143"; "5071"; "7230"; "8118"; "8353"]);
    ("15", ["0069"; "0197"; "1520"; "4242"; "6712"; "7926"; "8306"]);
    ("16", ["0069"; "0104"; "1030"; "3428"; "6091"; "7655"; "8227"]);
    ("17", ["0069"; "0069"; "0664"; "2672"; "5390"; "7291"; "8105"]);
    ("18", ["0069"; "0069"; "0407"; "2004"; "4641"; "6833"; "7926"]);
    ("19", ["0069"; "0069"; "0243"; "1445"; "3880"; "6284"; "7678"]);
    ("20", ["0069"; "0069"; "0147"; "1001"; "3144"; "5657"; "7351"]) ].

Definition valuesDictFav : list (string * list string) :=
  [
    ("1", ["10000"; "10000"; "10000"; "10000"; "10000"; "10000"; "10000"]);
    ("2", ["9722"; "10000"; "10000"; "10000"; "10000"; "10000"; "10000"]);
    ("3", ["9375"; "9896"; "10000"; "10000"; "10000"; "10000"; "10000"]);
    ("4", ["8889"; "9803"; "9925"; "10000"; "10000"; "10000"; "10000"]);
    ("5", ["8264"; "9630"; "9904"; "9930"; "10000"; "10000"; "10000"]);
    ("6", ["7500"; "9352"; "9853"; "9925"; "9930"; "10000"; "10000"]);
    ("7", ["6597"; "8947"; "9757"; "9912"; "9929"; "9931"; "10000"]);
    ("8", ["5556"; "8391"; "9593"; "9883"; "9926"; "9930"; "9931"]);
    ("9", ["4375"; "7697"; "9336"; "9827"; "9919"; "9930"; "9931"]);
    ("10", ["3056"; "6863"; "8970"; "9728"; "9901"; "9928"; "9930"]);
    ("11", ["1597"; "5891"; "8480"; "9569"; "9868"; "9923"; "9930"]);
    ("12", ["1597"; "4780"; "7857"; "9332"; "9807"; "9912"; "9929"]);
    ("13", ["1597"; "3796"; "7095"; "8999"; "9709"; "9892"; "9926"]);
    ("14", ["1597"; "2963"; "6236"; "8555"; "9556"; "9855"; "9919"]);
    ("15", ["1597"; "2303"; "5332"; "7996"; "9335"; "9793"; "9907"]);
    ("16", ["1597"; "1840"; "4433"; "7328"; "9030"; "9696"; "9884"]);
    ("17", ["1597"; "1597"; "3596"; "6572"; "8630"; "9551"; "9845"]);
    ("18", ["1597"; "1597"; "2880"; "5758"; "8130"; "9344"; "9783"]);
    ("19", ["1597"; "1597"; "2350"; "4929"; "7535"; "9065"; "9689"]);
    ("20", ["1597"; "1597"; "1983"; "4138"; "6856"; "8703"; "9551"]) ].

Definition segDict : list (string * list Z) :=
  [
    (" ", [0; 0; 0; 0; 0; 0; 0]);
    ("-", [0; 0; 0; 0; 0; 0; 1]);
    ("_", [0; 0; 0; 1; 0; 0; 0]);
    ("+", [1; 0; 0; 0; 0; 0; 0]);
    ("0", [1; 1; 1; 1; 1; 1; 0]);
    ("1", [0; 1; 1; 0; 0; 0; 0]);
    ("2", [1; 1; 0; 1; 1; 0; 1]);
    ("3", [1; 1; 1; 1; 0; 0; 1]);
    ("4", [0; 1; 1; 0; 0; 1; 1]);
    ("5", [1; 0; 1; 1; 0; 1; 1]);
    ("6", [1; 0; 1; 1; 1; 1; 1]);
    ("7", [1; 1; 1; 0; 0; 0; 0]);
    ("8", [1; 1; 1; 1; 1; 1; 1]);
    ("9", [1; 1; 1; 1; 0; 1; 1]) ].
(** [d[key]] for a dictionary written as the list of its items; the
    keys of the four dictionaries are distinct. *)
Definition dict_get {V : Type} (d : list (string * V)) (key : string)
    : py_error + V :=
  match find (fun kv => String.eqb (fst kv) key) d with
  | Some kv => inr (snd kv)
  | None => inl (KeyError key)
  end.

(** [str(i)] and the format [{i:02}] of an integer. *)
Definition str (i : Z) : string :=
  DecimalString.NilZero.string_of_int (Z.to_int i).

Definition format_02 (i : Z) : string :=
  let s := str i in
  if (String.length s <? 2)%nat then String "0" s else s.

(** [s[i]]: the one-character string at a subscript. *)
Definition string_index (s : string) (i : Z) : py_error + string :=
  let n := Z.of_nat (String.length s) in
  let j := if i <? 0 then i + n else i in
  if (j <? 0) || (n <=? j) then inl IndexError
  else match String.get (Z.to_nat j) s with
       | Some c => inr (String c EmptyString)
       | None => inl IndexError
       end.

(** The module-level variables that the main loop and the display
    callbacks share. *)
Record globals : Type := mkGlobals {
  sr : Z;
  rang : Z;
  fav : Z;
  val : string;
  mode : Z;
  sw_r_oldV : Z;
  sw_l_oldV : Z
}.

(** What one pass of the main loop reads from outside: each call of
    [sw_r.value()] and [sw_l.value()] in the order of the text, and the
    values of the two knobs. *)
Record readings : Type := mkReadings {
  sw_r_1 : Z; sw_r_2 : Z; sw_r_3 : Z;
  sw_l_1 : Z; sw_l_2 : Z; sw_l_3 : Z;
  knob_l : Z; knob_r : Z
}.

(** [valuesDict...[str(sr)][rang]] *)
Definition table_value (table : list (string * list string)) (g : globals)
    : py_error + string :=
  match dict_get table (str (sr g)) with
  | inl e => inl e
  | inr row => list_index row (rang g)
  end.

Definition with_val (v : string) (g : globals) : globals :=
  mkGlobals (sr g) (rang g) (fav g) v (mode g) (sw_r_oldV g) (sw_l_oldV g).

(** [if fav == k: val = table[str(sr)][rang]], followed by [next]. *)
Definition lookup_when (k : Z) (table : list (string * list string))
    (next : globals -> attempt globals) (g : globals) : attempt globals :=
  if fav g =? k
  then match table_value table g with
       | inl e => Failed e g
       | inr v => next (with_val v g)
       end
  else next g.

(** The body of [while True], up to [time.sleep_ms]. *)
Definition loop_body (i : readings) (g : globals) : attempt globals :=
  let g :=
    if negb (sw_r_1 i =? sw_r_oldV g)
    then mkGlobals (sr g) (rang g) (fav g) (val g)
                   (if sw_r_2 i >? 0 then mode g * -1 else mode g)
                   (sw_r_3 i) (sw_l_oldV g)
    else g in
  let g := mkGlobals (knob_l i) (knob_r i) (fav g) (val g) (mode g)
                     (sw_r_oldV g) (sw_l_oldV g) in
  let g :=
    if negb (sw_l_1 i =? sw_l_oldV g)
    then let fav1 := if sw_l_2 i >? 0 then fav g + 1 else fav g in
         let fav2 := if fav1 >? 1 then -1 else fav1 in
         mkGlobals (sr g) (rang g) fav2 (val g) (mode g)
                   (sw_r_oldV g) (sw_l_3 i)
    else g in
  lookup_when (-1) valuesDictDefav
    (lookup_when 0 valuesDictNeutre
       (lookup_when 1 valuesDictFav (fun g => Completed g))) g.

(** The variables when the loop starts: the two knobs and the two
    switches have just been read, the rest is as the module set it. *)
Definition initial_globals (knob_l knob_r sw_r sw_l : Z) : globals :=
  mkGlobals knob_l knob_r 0 "0000" (-1) sw_r sw_l.

(** *** The display *)

Inductive pin : Type :=
| d1 | d2 | d3 | d4
| aa | ab | ac | ad | ae | af | ag
| dp.

Definition pin_eqb (p q : pin) : bool :=
  match p, q with
  | d1, d1 | d2, d2 | d3, d3 | d4, d4
  | aa, aa | ab, ab | ac, ac | ad, ad | ae, ae | af, af | ag, ag
  | dp, dp => true
  | _, _ => false
  end.

(** A request [Timer.init(mode=Timer.ONE_SHOT, period=..., callback=clear)]. *)
Inductive timer_request : Type :=
| one_shot_clear (period : Z).

(** The output pins and the timers asked for so far. *)
Record panel : Type := mkPanel {
  level : pin -> Z;
  timers : list timer_request
}.

(** Statements that work on the panel and may raise. *)
Definition action (A : Type) : Type := panel -> (py_error + A) * panel.

Definition ret {A : Type} (a : A) : action A := fun p => (inr a, p).

Definition bind {A B : Type} (m : action A) (k : A -> action B) : action B :=
  fun p =>
    match m p with
    | (inr a, p') => k a p'
    | (inl e, p') => (inl e, p')
    end.

Definition lift {A : Type} (x : py_error + A) : action A := fun p => (x, p).

Notation "x <- m ;; k" := (bind m (fun x => k))
  (at level 61, m at next level, right associativity).
Notation "m ;;; k" := (bind m (fun _ => k))
  (at level 61, right associativity).

Definition pin_value (q : pin) (x : Z) : action unit :=
  fun p =>
    (inr tt,
     mkPanel (fun q' => if pin_eqb q' q then pin_level x else level p q')
             (timers p)).

Definition timer_init (t : timer_request) : action unit :=
  fun p => (inr tt, mkPanel (level p) (timers p ++ [t])%list).

Definition clear : action unit :=
  pin_value d1 1 ;;; pin_value d2 1 ;;; pin_value d3 1 ;;; pin_value d4 1 ;;;
  pin_value aa 0 ;;; pin_value ab 0 ;;; pin_value ac 0 ;;; pin_value ad 0 ;;;
  pin_value ae 0 ;;; pin_value af 0 ;;; pin_value ag 0 ;;; pin_value dp 0.

Definition writeDigit (arrSeg : list Z) (d : Z) : action unit :=
  v <- lift (list_index arrSeg 0) ;; pin_value aa v ;;;
  v <- lift (list_index arrSeg 1) ;; pin_value ab v ;;;
  v <- lift (list_index arrSeg 2) ;; pin_value ac v ;;;
  v <- lift (list_index arrSeg 3) ;; pin_value ad v ;;;
  v <- lift (list_index arrSeg 4) ;; pin_value ae v ;;;
  v <- lift (list_index arrSeg 5) ;; pin_value af v ;;;
  v <- lift (list_index arrSeg 6) ;; pin_value ag v ;;;
  pin_value dp d.

(** [writeDigit(segDict[key], d)] *)
Definition write_key (key : string) (d : Z) : action unit :=
  seg <- lift (dict_get segDict key) ;; writeDigit seg d.

(** [writeDigit(segDict[s[i]], d)] *)
Definition write_char (s : string) (i : Z) (d : Z) : action unit :=
  key <- lift (string_index s i) ;; write_key key d.

Definition when (b : bool) (m : action unit) : action unit :=
  if b then m else ret tt.

Definition displayD1 (g : globals) : action unit :=
  timer_init (one_shot_clear 4) ;;;
  pin_value d1 0 ;;; pin_value d2 1 ;;; pin_value d3 1 ;;; pin_value d4 1 ;;;
  when (mode g =? -1) (write_key (str (rang g)) 0) ;;;
  when (mode g =? 1) (write_char (val g) 0 0).

Definition displayD2 (g : globals) : action unit :=
  timer_init (one_shot_clear 4) ;;;
  pin_value d1 1 ;;; pin_value d2 0 ;;; pin_value d3 1 ;;; pin_value d4 1 ;;;
  when (mode g =? -1)
       (if fav g =? -1 then write_key "_" 0
        else if fav g =? 0 then write_key "-" 0
        else if fav g =? 1 then write_key "+" 0
        else ret tt) ;;;
  when (mode g =? 1)
       (if String.eqb (val g) "10000" then write_char (val g) 1 0
        else write_char (val g) 1 1).

Definition displayD3 (g : globals) : action unit :=
  timer_init (one_shot_clear 4) ;;;
  pin_value d1 1 ;;; pin_value d2 1 ;;; pin_value d3 0 ;;; pin_value d4 1 ;;;
  when (mode g =? -1)
       (if sr g >=? 10 then write_char (format_02 (sr g)) 0 0
        else write_key " " 0) ;;;
  when (mode g =? 1)
       (if String.eqb (val g) "10000" then write_char (val g) 2 1
        else write_char (val g) 2 0).

Definition displayD4 (g : globals) : action unit :=
  timer_init (one_shot_clear 4) ;;;
  pin_value d1 1 ;;; pin_value d2 1 ;;; pin_value d3 1 ;;; pin_value d4 0 ;;;
  when (mode g =? -1) (write_char (format_02 (sr g)) 1 0) ;;;
  when (mode g =? 1) (write_char (val g) 3 0).

(** The four callbacks by the digit they drive. *)
Definition display (digit : pin) (g : globals) : action unit :=
  match digit with
  | d1 => displayD1 g
  | d2 => displayD2 g
  | d3 => displayD3 g
  | d4 => displayD4 g
  | _ => ret tt
  end.

(** The levels of the seven segments [aa] to [ag]. *)
Definition segments (p : panel) : list Z :=
  map (level p) [aa; ab; ac; ad; ae; af; ag].

(** A value that the display can show: its first four characters are
    keys of [segDict] whose entries have seven levels. *)
Definition shows_key (key : string) : bool :=
  match dict_get segDict key with
  | inr seg => Nat.eqb (List.length seg) 7
  | inl _ => false
  end.

Definition displayable (v : string) : bool :=
  forallb (fun i => match string_index v i with
                    | inr key => shows_key key
                    | inl _ => false
                    end)
          [0; 1; 2; 3].

(** The checks that are run over the domain of the tables. *)
Definition table_cell_ok (table : list (string * list string))
    (s r : Z) : bool :=
  match dict_get table (str s) with
  | inr row => match list_index row r with
               | inr v => displayable v
               | inl _ => false
               end
  | inl _ => false
  end.

Definition tables_ok : bool :=
  forallb (fun table =>
             forallb (fun s =>
                        forallb (fun r => table_cell_ok table s r)
                                (map Z.of_nat (seq 0 7)))
                     (map Z.of_nat (seq 1 20)))
          [valuesDictDefav; valuesDictNeutre; valuesDictFav].

End Calculator.

(** *** Vocabulary for the calculator *)

Definition value_tables : list (list (String.string * list String.string)) :=
  [Calculator.valuesDictDefav; Calculator.valuesDictNeutre;
   Calculator.valuesDictFav].

(** What the main loop keeps true of the variables that the display
    reads. *)
Definition loop_invariant (g : Calculator.globals) : Prop :=
  1 <= Calculator.sr g <= 20 /\ 0 <= Calculator.rang g <= 6
  /\ Calculator.displayable (Calculator.val g) = true.

Definition digit_pins : list Calculator.pin :=
  [Calculator.d1; Calculator.d2; Calculator.d3; Calculator.d4].

(** An action that completes and touches neither the digit pins nor the
    timers. *)
Definition writes_segments_only (m : Calculator.action unit) : Prop :=
  forall p, exists p',
    m p = (inr tt, p')
    /\ Calculator.timers p' = Calculator.timers p
    /\ forall q, In q digit_pins ->
                 Calculator.level p' q = Calculator.level p q.

(** An action that completes and leaves a given pattern on the seven
    segments. *)
Definition shows (pattern : list Z) (m : Calculator.action unit) : Prop :=
  forall p, exists p',
    m p = (inr tt, p') /\ Calculator.segments p' = pattern.

(** The entry of [segDict] for a decimal digit. *)
Definition digit_pattern (d : Z) : list Z :=
  match Calculator.dict_get Calculator.segDict (Calculator.str d) with
  | inr seg => seg
  | inl _ => []
  end.

(** The character of a string at a subscript is a key of [segDict]; the
    levels that writing it puts on the segments. *)
Definition char_shown (s : String.string) (i : Z) : bool :=
  match Calculator.string_index s i with
  | inr key => Calculator.shows_key key
  | inl _ => false
  end.

Definition pattern_at (s : String.string) (i : Z) : list Z :=
  match Calculator.string_index s i with
  | inr key =>
      match Calculator.dict_get Calculator.segDict key with
      | inr seg => map pin_level seg
      | inl _ => []
      end
  | inl _ => []
  end.

Definition same_levels (a b : list Z) : bool :=
  if list_eq_dec Z.eq_dec a b then true else false.

(** The checks that are run over the values of the knobs. *)
Definition rows_ok (table : list (String.string * list String.string))
    : bool :=
  forallb (fun s => match Calculator.dict_get table (Calculator.str s) with
                    | inr row => Nat.eqb (length row) 7
                    | inl _ => false
                    end)
          (map Z.of_nat (seq 1 20)).

Definition knob_digits_shown (s : Z) : bool :=
  char_shown (Calculator.format_02 s) 0
  && char_shown (Calculator.format_02 s) 1.

Definition rang_digit_shown (r : Z) : bool :=
  Calculator.shows_key (Calculator.str r).

Definition setup_digits_ok (s : Z) : bool :=
  knob_digits_shown s
  && same_levels (pattern_at (Calculator.format_02 s) 1)
                 (digit_pattern (s mod 10))
  && (if s <? 10 then true
      else same_levels (pattern_at (Calculator.format_02 s) 0)
                       (digit_pattern (s / 10))).

Definition rang_digit_ok (r : Z) : bool :=
  rang_digit_shown r
  && same_levels (map pin_level (digit_pattern r)) (digit_pattern r).

(** ** Basic facts about the decoder *)

Lemma state_bits_range (state : Z) : 0 <= state_bits state < 8.
Proof.
  unfold state_bits, _STATE_MASK.
  change 0x07 with (Z.ones 3).
  rewrite Z.land_ones by lia.
  change (2 ^ 3) with 8.
  apply Z.mod_pos_bound; lia.
Qed.

Lemma state_bits_cases (state : Z) :
  In (state_bits state) [0; 1; 2; 3; 4; 5; 6; 7].
Proof.
  pose proof (state_bits_range state) as H. simpl.
  assert (state_bits state = 0 \/ state_bits state = 1 \/
          state_bits state = 2 \/ state_bits state = 3 \/
          state_bits state = 4 \/ state_bits state = 5 \/
          state_bits state = 6 \/ state_bits state = 7) as C by lia.
  intuition auto.
Qed.

Lemma read_pins_cases (invert clk dt : bool) :
  In (Rotary.read_pins invert clk dt) [0; 1; 2; 3].
Proof. destruct invert, clk, dt; vm_compute; tauto. Qed.

(** Case analysis on the state bits of [s] and on a two-bit sample. *)
Ltac each_state s :=
  let H := fresh "Hbits" in
  pose proof (state_bits_cases s) as H; simpl in H;
  repeat (destruct H as [H | H]); [.. | contradiction].

Ltac each_sample x :=
  let H := fresh "Hsample" in
  assert (x = 0 \/ x = 1 \/ x = 2 \/ x = 3) as H by lia;
  repeat (destruct H as [H | H]); subst x.

(** The decoder never indexes a table out of range: the lookup that
    raises [IndexError] in Python always succeeds, and [table_get]
    returns the entry it finds. *)
Lemma table_index_in_range (half_step invert clk dt : bool) (state : Z) :
  let table :=
    if half_step then _transition_table_half_step else _transition_table in
  table_get_error table (state_bits state) (Rotary.read_pins invert clk dt)
  = Some (Rotary.next_state half_step state (Rotary.read_pins invert clk dt)).
Proof.
  unfold Rotary.next_state. fold (state_bits state).
  each_state state; rewrite <- Hbits;
    destruct half_step, invert, clk, dt; reflexivity.
Qed.

Lemma next_state_bits (half_step : bool) (state sample : Z) :
  Rotary.next_state half_step state sample
  = Rotary.next_state half_step (state_bits state) sample.
Proof.
  unfold Rotary.next_state. fold (state_bits state).
  fold (state_bits (state_bits state)).
  each_state state; rewrite <- Hbits; reflexivity.
Qed.

Section EdgeFacts.
Context {World : Type}.
Implicit Types (r : Rotary World) (w : World) (s : bool * bool).

(** What an edge does to the decoder state, whatever the range policy
    and the listeners do afterwards. *)
Lemma on_edge_state s r w :
  _state (fst (Rotary.on_edge s (r, w)))
  = Rotary.next_state (_half_step r) (_state r)
      (Rotary.read_pins (_invert r) (fst s) (snd s)).
Proof.
  unfold Rotary.on_edge, Rotary._process_rotary_pins. simpl.
  repeat match goal with
         | |- context [match ?x with _ => _ end] => destruct x
         end; reflexivity.
Qed.

(** An edge changes nothing of the configuration. *)
Lemma on_edge_config s r w :
  let r' := fst (Rotary.on_edge s (r, w)) in
  _min_val r' = _min_val r /\ _max_val r' = _max_val r /\
  _incr r' = _incr r /\ _reverse r' = _reverse r /\
  _range_mode r' = _range_mode r /\ _half_step r' = _half_step r /\
  _invert r' = _invert r /\ _listener r' = _listener r /\ _irq r' = _irq r.
Proof.
  unfold Rotary.on_edge, Rotary._process_rotary_pins. simpl.
  repeat match goal with
         | |- context [match ?x with _ => _ end] => destruct x
         end; simpl; repeat split; reflexivity.
Qed.

Lemma on_edge_half_step s r w :
  _half_step (fst (Rotary.on_edge s (r, w))) = _half_step r.
Proof. apply (on_edge_config s r w). Qed.

Lemma on_edge_invert s r w :
  _invert (fst (Rotary.on_edge s (r, w))) = _invert r.
Proof. apply (on_edge_config s r w). Qed.

End EdgeFacts.

(** ** The full-step decoder *)

Section FullStep.
Context {World : Type}.
Implicit Types (r : Rotary World) (w : World) (s : bool * bool).

Lemma full_step_entry state (invert clk dt : bool) :
  In (Rotary.next_state false state (Rotary.read_pins invert clk dt))
     [_R_START; _R_CW_1; _R_CW_2; _R_CW_3; _R_CCW_1; _R_CCW_2; _R_CCW_3;
      Z.lor _R_START _DIR_CW; Z.lor _R_START _DIR_CCW].
Proof.
  rewrite (next_state_bits false state).
  each_state state; rewrite <- Hbits;
    destruct invert, clk, dt; vm_compute; tauto.
Qed.

Lemma full_step_never_illegal state (invert clk dt : bool) :
  state_bits (Rotary.next_state false state (Rotary.read_pins invert clk dt))
  <> _R_ILLEGAL.
Proof.
  pose proof (full_step_entry state invert clk dt) as H. cbn [In] in H.
  repeat (destruct H as [H | H]); try contradiction;
    rewrite <- H; vm_compute; discriminate.
Qed.

(** [entry_sample] is read off the table: a sub-state of a rotation is
    entered on its own sample only. *)
Lemma entry_sample_sound state (sample : Z) :
  0 <= sample <= 3 ->
  state_bits (Rotary.next_state false state sample) <> _R_START ->
  entry_sample (state_bits (Rotary.next_state false state sample)) = sample.
Proof.
  intros Hs. rewrite (next_state_bits false state).
  each_state state; rewrite <- Hbits; each_sample sample;
    vm_compute; congruence.
Qed.

(** A direction is reported only by a state that has just returned to
    rest on the sample 11. *)
Lemma direction_only_at_rest state (sample : Z) :
  0 <= sample <= 3 ->
  event_of (Rotary.next_state false state sample) <> NoDirection ->
  sample = 3 /\ state_bits (Rotary.next_state false state sample) = _R_START.
Proof.
  intros Hs. rewrite (next_state_bits false state).
  each_state state; rewrite <- Hbits; each_sample sample;
    vm_compute; intros H; try (exfalso; apply H; reflexivity);
    split; reflexivity.
Qed.



End FullStep.

(** ** Runs of the tracker *)

Section Runs.
Context {World : Type}.
Implicit Types (r : Rotary World) (w : World) (s : bool * bool).
Implicit Types (rw : Rotary World * World).

Lemma run_end_snoc samples s rw :
  Rotary.run_end (samples ++ [s]) rw
  = Rotary.on_edge s (Rotary.run_end samples rw).
Proof. unfold Rotary.run_end. rewrite fold_left_app. reflexivity. Qed.

Lemma on_edge_config_pair s rw :
  let r' := fst (Rotary.on_edge s rw) in
  _half_step r' = _half_step (fst rw) /\ _invert r' = _invert (fst rw) /\
  _incr r' = _incr (fst rw) /\ _reverse r' = _reverse (fst rw) /\
  _range_mode r' = _range_mode (fst rw) /\
  _min_val r' = _min_val (fst rw) /\ _max_val r' = _max_val (fst rw).
Proof.
  destruct rw as [r w].
  pose proof (on_edge_config s r w) as H. simpl in *. tauto.
Qed.

Lemma run_end_config samples rw :
  let r' := fst (Rotary.run_end samples rw) in
  _half_step r' = _half_step (fst rw) /\ _invert r' = _invert (fst rw) /\
  _incr r' = _incr (fst rw) /\ _reverse r' = _reverse (fst rw) /\
  _range_mode r' = _range_mode (fst rw) /\
  _min_val r' = _min_val (fst rw) /\ _max_val r' = _max_val (fst rw).
Proof.
  revert rw. induction samples as [| s samples IH]; intros rw.
  - simpl. tauto.
  - change (Rotary.run_end (s :: samples) rw)
      with (Rotary.run_end samples (Rotary.on_edge s rw)).
    specialize (IH (Rotary.on_edge s rw)).
    pose proof (on_edge_config_pair s rw) as H. simpl in *.
    repeat split; etransitivity; try apply IH; apply H.
Qed.

(** The states that a run visits never have the illegal state bits,
    wherever the run starts. *)
Lemma run_never_illegal samples rw :
  _half_step (fst rw) = false ->
  Forall (fun rw' => state_bits (_state (fst rw')) <> _R_ILLEGAL)
         (Rotary.run samples rw).
Proof.
  revert rw. induction samples as [| s samples IH]; intros [r w] Hh.
  - constructor.
  - simpl in Hh. cbn [Rotary.run]. constructor.
    + rewrite on_edge_state, Hh. apply full_step_never_illegal.
    + apply IH. destruct (Rotary.on_edge s (r, w)) as [r' w'] eqn:E.
      simpl. change r' with (fst (r', w')). rewrite <- E.
      rewrite on_edge_half_step. exact Hh.
Qed.

End Runs.

(** ** One event per detent (C1) *)

(** C1. From a tracker whose decoder is at rest, in full-step mode and
    without signal inversion, the clockwise detent 10, 00, 01, 11 yields
    the events none, none, none, clockwise: one clockwise event in the
    whole sequence, on the last sample, after which the decoder is at
    rest again. *)
Theorem cw_detent_one_event {World : Type} (r : Rotary World) (w : World) :
  _half_step r = false ->
  _invert r = false ->
  state_bits (_state r) = _R_START ->
  let events :=
    map (fun rw => event_of (_state (fst rw)))
        (Rotary.run cw_detent (r, w)) in
  events = [NoDirection; NoDirection; NoDirection; Clockwise]
  /\ count_occ DirectionEvent_eq_dec events Clockwise = 1%nat
  /\ count_occ DirectionEvent_eq_dec events CounterClockwise = 0%nat
  /\ state_bits (_state (fst (Rotary.run_end cw_detent (r, w)))) = _R_START.
Proof.
  intros Hh Hi Hs.
  assert (forall s (rw : Rotary World * World),
             _half_step (fst rw) = false -> _invert (fst rw) = false ->
             _state (fst (Rotary.on_edge s rw))
             = Rotary.next_state false (state_bits (_state (fst rw)))
                 (Rotary.read_pins false (fst s) (snd s))
             /\ _half_step (fst (Rotary.on_edge s rw)) = false
             /\ _invert (fst (Rotary.on_edge s rw)) = false) as step.
  { intros s [r0 w0] H1 H2. simpl in H1, H2.
    rewrite on_edge_state, on_edge_half_step, on_edge_invert, H1, H2.
    rewrite (next_state_bits false (_state r0)). auto. }
  unfold cw_detent, Rotary.run_end. cbn [Rotary.run map fold_left].
  set (rw0 := (r, w)).
  set (rw1 := Rotary.on_edge (true, false) rw0).
  set (rw2 := Rotary.on_edge (false, false) rw1).
  set (rw3 := Rotary.on_edge (false, true) rw2).
  set (rw4 := Rotary.on_edge (true, true) rw3).
  destruct (step (true, false) rw0 Hh Hi) as (E1 & Hh1 & Hi1).
  fold rw1 in E1, Hh1, Hi1.
  destruct (step (false, false) rw1 Hh1 Hi1) as (E2 & Hh2 & Hi2).
  fold rw2 in E2, Hh2, Hi2.
  destruct (step (false, true) rw2 Hh2 Hi2) as (E3 & Hh3 & Hi3).
  fold rw3 in E3, Hh3, Hi3.
  destruct (step (true, true) rw3 Hh3 Hi3) as (E4 & _ & _).
  fold rw4 in E4.
  clearbody rw1 rw2 rw3 rw4.
  subst rw0. simpl fst in E1. rewrite Hs in E1.
  rewrite E1 in E2. rewrite E2 in E3. rewrite E3 in E4.
  rewrite E1, E2, E3, E4. vm_compute. auto.
Qed.

Lemma cw_detent_one_event_witness :
  _half_step plain_knob = false /\ _invert plain_knob = false /\
  state_bits (_state plain_knob) = _R_START /\
  map (fun rw => event_of (_state (fst rw)))
      (Rotary.run cw_detent (plain_knob, tt))
  = [NoDirection; NoDirection; NoDirection; Clockwise].
Proof.
  split; [reflexivity |]. split; [reflexivity |]. split; [reflexivity |].
  apply (cw_detent_one_event plain_knob tt); reflexivity.
Defined.

(** ** Glitch rejection (C2) *)



Lemma last_cons_default {A : Type} (a d : A) (l : list A) :
  last (a :: l) d = last l a.
Proof.
  revert a d. induction l as [| b l IH]; intros a d; [reflexivity |].
  change (last (a :: b :: l) d) with (last (b :: l) d).
  rewrite (IH b d), (IH b a). reflexivity.
Qed.




(** A sample that changes both lines at once never reports a direction,
    wherever the decoder was before: the two states that can report one
    are entered on 01 and on 10 only, and report on 11. *)
Lemma double_change_reports_nothing {World : Type}
    (r : Rotary World) (w : World) (before : list (bool * bool))
    (p s : bool * bool) :
  _half_step r = false ->
  both_lines_differ (seen r p) (seen r s) = true ->
  event_of (_state (fst (Rotary.run_end ((before ++ [p]) ++ [s]) (r, w))))
  = NoDirection.
Proof.
  intros Hh Hd. rewrite !run_end_snoc.
  destruct (Rotary.run_end before (r, w)) as [r0 w0] eqn:E.
  pose proof (run_end_config before (r, w)) as C. rewrite E in C.
  cbn [fst] in C. destruct C as (Ch & Ci & _).
  pose proof (on_edge_config p r0 w0) as C1. cbv zeta in C1.
  destruct C1 as (_ & _ & _ & _ & _ & Ch1 & Ci1 & _).
  pose proof (on_edge_state p r0 w0) as S1.
  destruct (Rotary.on_edge p (r0, w0)) as [r1 w1]. cbn [fst] in *.
  rewrite on_edge_state, S1, Ch1, Ci1, Ch, Ci, Hh.
  fold (seen r p). fold (seen r s).
  pose proof (read_pins_cases (_invert r) (fst p) (snd p)) as Rp.
  pose proof (read_pins_cases (_invert r) (fst s) (snd s)) as Rs.
  fold (seen r p) in Rp. fold (seen r s) in Rs.
  revert Hd Rp Rs. generalize (seen r p) (seen r s). intros a b Hd Ra Rb.
  rewrite (next_state_bits false (_state r0)).
  simpl in Ra, Rb.
  each_state (_state r0); rewrite <- Hbits;
    repeat (destruct Ra as [Ra | Ra]); try contradiction; subst a;
    repeat (destruct Rb as [Rb | Rb]); try contradiction; subst b;
    try discriminate Hd; reflexivity.
Qed.


(** Once a glitch has sent the decoder to rest it no longer knows where
    the lines are: after 10, 01 the decoder is at rest, and the sample 10
    starts a clockwise rotation like any other 10 seen at rest. *)
Example sample_after_glitch_starts_anew :
  map (fun rw => _state (fst rw))
      (Rotary.run [(true, false); (false, true); (true, false)]
                  (plain_knob, tt))
  = [_R_CW_1; _R_START; _R_CW_1].
Proof. reflexivity. Qed.

(** ** The illegal state is never entered (C10) *)

(** C10. No entry of the full-step table has the state bits of the
    illegal state, and a tracker in full-step mode that starts at rest
    never has them after any edge of any sequence of samples. *)
Theorem illegal_state_unreachable {World : Type}
    (r : Rotary World) (w : World) (samples : list (bool * bool)) :
  _half_step r = false ->
  _state r = _R_START ->
  Forall (Forall (fun entry => state_bits entry <> _R_ILLEGAL))
         _transition_table
  /\ Forall (fun rw' => state_bits (_state (fst rw')) <> _R_ILLEGAL)
            (Rotary.run samples (r, w)).
Proof.
  intros Hh _. split.
  - unfold _transition_table.
    repeat (constructor; [repeat (constructor; [vm_compute; discriminate |]);
                          constructor |]).
    constructor.
  - apply run_never_illegal. exact Hh.
Qed.

Lemma illegal_state_unreachable_witness :
  _half_step r_l = false /\ _state r_l = _R_START /\
  Forall (fun rw' => state_bits (_state (fst rw')) <> _R_ILLEGAL)
         (Rotary.run (cw_detent ++ [(false, false); (true, true)] ++ ccw_detent)
                     (r_l, tt)).
Proof.
  split; [reflexivity |]. split; [reflexivity |].
  apply (illegal_state_unreachable r_l tt); reflexivity.
Defined.

(** ** Range policies (C3, C7, C4) *)

(** Adding a multiple of the range before the final remainder does not
    change it, so the branch for values below the lower bound has no
    effect on the result. *)
Lemma wrap_value (value incr lower_bound upper_bound : Z) :
  upper_bound - lower_bound + 1 <> 0 ->
  _wrap value incr lower_bound upper_bound
  = inr (lower_bound
         + (value + incr - lower_bound) mod (upper_bound - lower_bound + 1)).
Proof.
  intros Hrange. unfold _wrap.
  destruct (Z.eqb_spec (upper_bound - lower_bound + 1) 0) as [E | _];
    [contradiction |].
  destruct (value + incr <? lower_bound); [| reflexivity].
  f_equal. f_equal.
  set (range := upper_bound - lower_bound + 1) in *.
  set (k := (lower_bound - (value + incr)) / range + 1).
  replace (value + incr + range * k - lower_bound)
    with (value + incr - lower_bound + k * range) by ring.
  apply Z_mod_plus_full.
Qed.

Lemma wrap_zero_range (value incr lower_bound upper_bound : Z) :
  upper_bound - lower_bound + 1 = 0 ->
  _wrap value incr lower_bound upper_bound = inl ZeroDivisionError.
Proof. intros H. unfold _wrap. rewrite H. reflexivity. Qed.

Lemma wrap_in_range (x lower_bound upper_bound : Z) :
  upper_bound - lower_bound + 1 > 0 ->
  lower_bound
  <= lower_bound + (x - lower_bound) mod (upper_bound - lower_bound + 1)
  <= upper_bound.
Proof.
  intros Hrange.
  pose proof (Z.mod_pos_bound (x - lower_bound)
                              (upper_bound - lower_bound + 1)) as B.
  lia.
Qed.

Lemma bound_in_range (value incr lower_bound upper_bound : Z) :
  lower_bound <= upper_bound ->
  lower_bound <= _bound value incr lower_bound upper_bound <= upper_bound.
Proof. intros H. unfold _bound. lia. Qed.

(** C3. When the range [upper - lower + 1] is positive, [_wrap] returns
    [lower + ((value + incr - lower) mod range)], and that lies between
    the bounds for every integer increment. *)
Theorem wrap_returns_wrapped_value (value incr lower_bound upper_bound : Z) :
  upper_bound - lower_bound + 1 > 0 ->
  exists result,
    _wrap value incr lower_bound upper_bound = inr result
    /\ result
       = lower_bound
         + (value + incr - lower_bound) mod (upper_bound - lower_bound + 1)
    /\ lower_bound <= result <= upper_bound.
Proof.
  intros Hrange. eexists. split; [apply wrap_value; lia |].
  split; [reflexivity |].
  apply (wrap_in_range (value + incr)). exact Hrange.
Qed.

Lemma wrap_returns_wrapped_value_witness :
  20 - 1 + 1 > 0 /\
  exists result,
    _wrap 20 45 1 20 = inr result
    /\ result = 1 + (20 + 45 - 1) mod (20 - 1 + 1)
    /\ 1 <= result <= 20.
Proof.
  split; [lia |].
  apply (wrap_returns_wrapped_value 20 45 1 20); lia.
Defined.

(** C7. For bounds [lo <= hi] and a value between them, wrapping by [k]
    and then by [-k] gives the value back. *)
Theorem wrap_then_unwrap (v k lo hi : Z) :
  lo <= hi ->
  lo <= v <= hi ->
  match _wrap v k lo hi with
  | inr v' => _wrap v' (- k) lo hi
  | inl e => inl e
  end = inr v.
Proof.
  intros Hb Hv.
  rewrite (wrap_value v k lo hi) by lia.
  rewrite wrap_value by lia.
  f_equal.
  set (range := hi - lo + 1).
  replace (lo + (v + k - lo) mod range + - k - lo)
    with ((v + k - lo) mod range - k) by ring.
  rewrite Zminus_mod_idemp_l.
  replace (v + k - lo - k) with (v - lo) by ring.
  rewrite Z.mod_small by (unfold range; lia).
  ring.
Qed.

Lemma wrap_then_unwrap_witness :
  1 <= 20 /\ 1 <= 4 <= 20 /\
  match _wrap 4 (-37) 1 20 with
  | inr v' => _wrap v' (- (-37)) 1 20
  | inl e => inl e
  end = inr 4.
Proof.
  split; [lia |]. split; [lia |].
  apply (wrap_then_unwrap 4 (-37) 1 20); lia.
Defined.

(** What the edge handler returns, by range mode. The decoder state
    after the edge is [next_state]; the increment is [step_of] of it. *)
Section HandlerResult.
Context {World : Type}.
Implicit Types (r : Rotary World) (w : World).

Lemma process_new_value r w (clk dt : bool) (v : Z) :
  (if _range_mode r =? Rotary.RANGE_WRAP
   then _wrap (_value r) (edge_incr r clk dt) (_min_val r) (_max_val r)
   else if _range_mode r =? Rotary.RANGE_BOUNDED
   then inr (_bound (_value r) (edge_incr r clk dt) (_min_val r) (_max_val r))
   else inr (_value r + edge_incr r clk dt)) = inr v ->
  Rotary._process_rotary_pins clk dt r w
  = Done (Rotary.with_value v
            (Rotary.with_state (edge_state r clk dt) r),
          world_after r w v).
Proof.
  intros H. unfold Rotary._process_rotary_pins.
  cbn [Rotary.with_state Rotary.with_value _state _incr _reverse _range_mode
       _value _min_val _max_val _listener _half_step _invert].
  fold (edge_state r clk dt). fold (edge_incr r clk dt).
  rewrite H. unfold world_after, _trigger.
  cbn [_listener Rotary.with_value Rotary.with_state].
  destruct (negb (_value r =? v) && negb (Nat.eqb (length (_listener r)) 0));
    reflexivity.
Qed.

End HandlerResult.

(** C4. With ordered bounds and the range mode bounded or wrap, the edge
    handler returns normally for every sample and every prior value, the
    bounds are as before, and the tracked value lies between them. *)
Theorem tracked_value_within_bounds {World : Type}
    (r : Rotary World) (w : World) (clk dt : bool) :
  _min_val r <= _max_val r ->
  _range_mode r = Rotary.RANGE_BOUNDED \/ _range_mode r = Rotary.RANGE_WRAP ->
  exists r' w',
    Rotary._process_rotary_pins clk dt r w = Done (r', w')
    /\ _min_val r' = _min_val r /\ _max_val r' = _max_val r
    /\ _min_val r <= Rotary.value r' <= _max_val r.
Proof.
  intros Hb [Hm | Hm].
  - eexists. eexists. split.
    + apply process_new_value. rewrite Hm. reflexivity.
    + cbn. repeat split; try reflexivity; apply bound_in_range; exact Hb.
  - eexists. eexists. split.
    + apply process_new_value. rewrite Hm.
      change (Rotary.RANGE_WRAP =? Rotary.RANGE_WRAP) with true. cbv iota.
      apply wrap_value. lia.
    + cbn. repeat split; try reflexivity;
        apply (wrap_in_range (_value r + edge_incr r clk dt)); lia.
Qed.

Lemma tracked_value_within_bounds_witness :
  let r := Rotary.set (Some 400) None None None None None r_l in
  _min_val r <= _max_val r /\
  (_range_mode r = Rotary.RANGE_BOUNDED \/ _range_mode r = Rotary.RANGE_WRAP) /\
  exists r' w',
    Rotary._process_rotary_pins true false r tt = Done (r', w')
    /\ _min_val r' = _min_val r /\ _max_val r' = _max_val r
    /\ _min_val r <= Rotary.value r' <= _max_val r.
Proof.
  intros r.
  split; [vm_compute; discriminate |]. split; [left; reflexivity |].
  apply (tracked_value_within_bounds r tt true false).
  - vm_compute; discriminate.
  - left; reflexivity.
Defined.

(** The invariant along a whole run. *)
Lemma run_within_bounds {World : Type}
    (samples : list (bool * bool)) (rw : Rotary World * World) :
  _min_val (fst rw) <= _max_val (fst rw) ->
  _range_mode (fst rw) = Rotary.RANGE_BOUNDED
  \/ _range_mode (fst rw) = Rotary.RANGE_WRAP ->
  Forall (fun rw' =>
            _min_val (fst rw) <= _value (fst rw') <= _max_val (fst rw))
         (Rotary.run samples rw).
Proof.
  revert rw. induction samples as [| s samples IH]; intros [r w] Hb Hm.
  - constructor.
  - cbn [Rotary.run]. simpl fst in *.
    pose proof (on_edge_config s r w) as C. cbv zeta in C.
    destruct C as (Cmin & Cmax & _ & _ & Cmode & _).
    assert (_min_val r <= _value (fst (Rotary.on_edge s (r, w))) <= _max_val r)
      as Hv.
    { unfold Rotary.on_edge. simpl fst. simpl snd.
      assert (exists v, Rotary._process_rotary_pins (fst s) (snd s) r w
                        = Done (Rotary.with_value v
                                  (Rotary.with_state
                                     (edge_state r (fst s) (snd s)) r),
                                world_after r w v)
                        /\ _min_val r <= v <= _max_val r) as (v & E & Hv).
      { destruct Hm as [Hm | Hm].
        - eexists. split.
          + apply process_new_value. rewrite Hm. reflexivity.
          + apply bound_in_range; exact Hb.
        - eexists. split.
          + apply process_new_value. rewrite Hm.
            change (Rotary.RANGE_WRAP =? Rotary.RANGE_WRAP) with true.
            cbv iota. apply wrap_value. lia.
          + apply (wrap_in_range (_value r + edge_incr r (fst s) (snd s)));
              lia. }
      rewrite E. exact Hv. }
    constructor; [exact Hv |].
    specialize (IH (Rotary.on_edge s (r, w))).
    rewrite Cmin, Cmax, Cmode in IH. apply IH; assumption.
Qed.

(** ** Listener faults (C5) *)

Section ListenerFaults.
Context {World : Type}.
Implicit Types (r : Rotary World) (w : World).

Lemma call_each_app (pre post : list (Listener World)) w :
  call_each (pre ++ post) w
  = match call_each pre w with
    | Done w' => call_each post w'
    | Raise e w' => Raise e w'
    end.
Proof.
  revert w. induction pre as [| l pre IH]; intros w; [reflexivity |].
  simpl. destruct (l w) as [w' | e w']; [apply IH | reflexivity].
Qed.

(** Listeners after one that raises are not called. *)
Lemma call_each_stops_at_fault (pre post : list (Listener World))
    (bad : Listener World) w w1 w2 (e : exn) :
  call_each pre w = Done w1 ->
  bad w1 = Raise e w2 ->
  call_each (pre ++ bad :: post) w = Raise e w2.
Proof.
  intros Hpre Hbad. rewrite call_each_app, Hpre. simpl. rewrite Hbad.
  reflexivity.
Qed.

(** When the range policy raises, the handler raises with the decoder
    state already advanced and the value as it was. *)
Lemma process_range_error r w (clk dt : bool) (e : exn) :
  (if _range_mode r =? Rotary.RANGE_WRAP
   then _wrap (_value r) (edge_incr r clk dt) (_min_val r) (_max_val r)
   else if _range_mode r =? Rotary.RANGE_BOUNDED
   then inr (_bound (_value r) (edge_incr r clk dt) (_min_val r) (_max_val r))
   else inr (_value r + edge_incr r clk dt)) = inl e ->
  Rotary._process_rotary_pins clk dt r w
  = Raise e (Rotary.with_state (edge_state r clk dt) r, w).
Proof.
  intros H. unfold Rotary._process_rotary_pins.
  cbn [Rotary.with_state Rotary.with_value _state _incr _reverse _range_mode
       _value _min_val _max_val _listener _half_step _invert].
  fold (edge_state r clk dt). fold (edge_incr r clk dt).
  rewrite H. reflexivity.
Qed.

End ListenerFaults.

(** C5, as the code has it. When an edge changes the value and a
    listener raises, the handler still returns normally. The tracker it
    leaves has the value [v] that the range policy computed, which
    differs from the old one, has the decoder state of the edge, and is
    otherwise the tracker as it was, listeners included. The world it
    leaves is the one the raising listener left, so no listener
    registered after it has run, and nothing in the result records the
    fault. *)
Theorem listener_fault_is_swallowed {World : Type}
    (r : Rotary World) (w w1 w2 : World) (clk dt : bool)
    (pre post : list (Listener World)) (bad : Listener World) (e : exn) :
  _listener r = pre ++ bad :: post ->
  call_each pre w = Done w1 ->
  bad w1 = Raise e w2 ->
  _value (fst (Rotary.on_edge (clk, dt) (r, w))) <> _value r ->
  exists v r',
    apply_range r (edge_incr r clk dt) = inr v
    /\ v <> _value r
    /\ Rotary._process_rotary_pins clk dt r w = Done (r', w2)
    /\ r' = Rotary.with_value v (Rotary.with_state (edge_state r clk dt) r)
    /\ _value r' = v
    /\ _listener r' = _listener r.
Proof.
  intros Hl Hpre Hbad Hchange.
  unfold Rotary.on_edge in *. cbn [fst snd] in *.
  destruct (apply_range r (edge_incr r clk dt)) as [e' | v] eqn:E;
    unfold apply_range in E.
  - rewrite (process_range_error r w clk dt e' E) in Hchange.
    exfalso. apply Hchange. reflexivity.
  - rewrite (process_new_value r w clk dt v E) in Hchange |- *.
    cbn in Hchange.
    exists v, (Rotary.with_value v
                 (Rotary.with_state (edge_state r clk dt) r)).
    split; [reflexivity |]. split; [exact Hchange |].
    split; [| repeat split; reflexivity].
    f_equal. f_equal. unfold world_after.
    destruct (Z.eqb_spec (_value r) v) as [Ev | _];
      [exfalso; apply Hchange; symmetry; exact Ev |].
    rewrite Hl at 1. rewrite length_app. simpl length.
    rewrite Nat.add_succ_r. cbn [Nat.eqb negb andb].
    rewrite Hl. rewrite (call_each_stops_at_fault pre post bad w w1 w2 e);
      auto.
Qed.

Lemma listener_fault_is_swallowed_witness :
  let r := fst (Rotary.run_end [(true, false); (false, false); (false, true)]
                               (knob_with [logs 1; fails 2; logs 3], [])) in
  _listener r = [logs 1] ++ fails 2 :: [logs 3] /\
  call_each [logs 1] [] = Done [1%nat] /\
  fails 2 [1%nat] = Raise (OtherError 2) [1%nat; 2%nat] /\
  _value (fst (Rotary.on_edge (true, true) (r, []))) <> _value r /\
  _value r = 0 /\
  exists v r',
    apply_range r (edge_incr r true true) = inr v
    /\ v <> _value r
    /\ Rotary._process_rotary_pins true true r [] = Done (r', [1%nat; 2%nat])
    /\ r' = Rotary.with_value v (Rotary.with_state (edge_state r true true) r)
    /\ _value r' = v
    /\ _listener r' = _listener r.
Proof.
  intros r.
  split; [reflexivity |]. split; [reflexivity |]. split; [reflexivity |].
  split; [vm_compute; discriminate |]. split; [reflexivity |].
  apply (listener_fault_is_swallowed r [] [1%nat] [1%nat; 2%nat] true true
           [logs 1] [logs 3] (fails 2) (OtherError 2)).
  - reflexivity.
  - reflexivity.
  - reflexivity.
  - vm_compute; discriminate.
Defined.

(** The claim fails where it asks for the remaining listeners and for a
    record of the fault: with a raising listener registered before a
    logging one, the detent changes the value, the handler returns
    without an exception, and the call log holds the entry of the raising
    listener only. With a healthy first listener both are logged. *)
Lemma listener_fault_skips_the_rest :
  let before := [(true, false); (false, false); (false, true)] in
  let faulty := Rotary.run_end before (knob_with [fails 1; logs 2], []) in
  let healthy := Rotary.run_end before (knob_with [logs 1; logs 2], []) in
  let after_faulty :=
    Rotary._process_rotary_pins true true (fst faulty) (snd faulty) in
  let after_healthy :=
    Rotary._process_rotary_pins true true (fst healthy) (snd healthy) in
  snd faulty = [] /\ snd healthy = []
  /\ _value (fst faulty) = 0 /\ _value (fst (store_of after_faulty)) = 1
  /\ raised after_faulty = None
  /\ snd (store_of after_faulty) = [1%nat]
  /\ ~ In 2%nat (snd (store_of after_faulty))
  /\ snd (store_of after_healthy) = [1%nat; 2%nat].
Proof.
  vm_compute. repeat split; try reflexivity.
  intros [H | H]; [discriminate | exact H].
Qed.

(** ** Configuration updates (C6) *)

(** C6, as the code has it. [set] validates nothing and cannot raise:
    every supplied attribute is stored, every other attribute is kept,
    the decoder goes to rest and the handler ends up attached, whether
    or not the bounds are ordered and the increment is positive; the
    world is not touched. *)
Theorem set_applies_every_update {World : Type}
    (r : Rotary World) (w : World)
    (value min_val incr max_val : option Z) (reverse : option bool)
    (range_mode : option Z) :
  exists r',
    Rotary.perform
      (Rotary.Set_ value min_val incr max_val reverse range_mode) (r, w)
    = Done (r', w)
    /\ _value r' = Rotary.or_keep value (_value r)
    /\ _min_val r' = Rotary.or_keep min_val (_min_val r)
    /\ _max_val r' = Rotary.or_keep max_val (_max_val r)
    /\ _incr r' = Rotary.or_keep incr (_incr r)
    /\ _reverse r'
       = Rotary.or_keep (option_map Rotary.reverse_sign reverse) (_reverse r)
    /\ _range_mode r' = Rotary.or_keep range_mode (_range_mode r)
    /\ _state r' = _R_START
    /\ _half_step r' = _half_step r /\ _invert r' = _invert r
    /\ _listener r' = _listener r /\ _irq r' = true.
Proof.
  eexists. split; [reflexivity |]. cbn. repeat split; reflexivity.
Qed.

(** The claim fails: in the middle of a detent, an update that puts the
    lower bound above the upper bound and makes the increment zero is
    accepted without an exception, and bounds, increment and decoder
    state have all changed. *)
Lemma set_accepts_invalid_configuration :
  let r := fst (Rotary.run_end [(true, false)] (r_l, tt)) in
  let o :=
    Rotary.perform (Rotary.Set_ None (Some 5) (Some 0) (Some 1) None None)
                   (r, tt) in
  _min_val r = 1 /\ _max_val r = 20 /\ _incr r = 1 /\ _state r = _R_CW_1
  /\ raised o = None
  /\ _min_val (fst (store_of o)) = 5 /\ _max_val (fst (store_of o)) = 1
  /\ _min_val (fst (store_of o)) > _max_val (fst (store_of o))
  /\ _incr (fst (store_of o)) = 0 /\ _incr (fst (store_of o)) <= 0
  /\ _state (fst (store_of o)) = _R_START.
Proof. vm_compute. repeat split; try reflexivity; discriminate. Qed.

(** What the missing validation lets through: after an update that makes
    the range of a wrapping tracker zero, every edge raises
    [ZeroDivisionError]. *)
Example edge_after_empty_range :
  let r := Rotary.set None (Some 5) None (Some 4) None
                      (Some Rotary.RANGE_WRAP) r_l in
  raised (Rotary._process_rotary_pins true false r tt)
  = Some ZeroDivisionError.
Proof. reflexivity. Qed.

(** ** Re-seeding the value (C9) *)

(** C9. Re-seeding the tracked value with a value [v], which the code
    does with [set(value=v)], sets the tracked value to [v] and runs no
    listener: the call returns normally, the listeners stay registered
    and the world is as it was; the decoder is put at rest. [reset], the
    form without an argument, seeds 0 in the same way and leaves the
    decoder state alone. *)
Theorem reseed_runs_no_listener {World : Type}
    (r : Rotary World) (w : World) (v : Z) :
  (exists r0,
      Rotary.perform Rotary.Reset (r, w) = Done (r0, w)
      /\ Rotary.value r0 = 0 /\ _listener r0 = _listener r
      /\ _state r0 = _state r)
  /\ (exists rv,
         Rotary.perform (Rotary.Set_ (Some v) None None None None None) (r, w)
         = Done (rv, w)
         /\ Rotary.value rv = v /\ _listener rv = _listener r
         /\ _state rv = _R_START).
Proof.
  split; eexists; (split; [reflexivity |]); cbn; repeat split; reflexivity.
Qed.

(** ** Reversal (C8) *)

Section Reversal.
Context {World : Type}.
Implicit Types (r : Rotary World) (w : World) (s : bool * bool).

(** Without a range policy the value moves by the signed step. *)
Lemma on_edge_unbounded_value s r w :
  _range_mode r <> Rotary.RANGE_WRAP ->
  _range_mode r <> Rotary.RANGE_BOUNDED ->
  _value (fst (Rotary.on_edge s (r, w)))
  = _value r + edge_incr r (fst s) (snd s).
Proof.
  intros Hw Hb. unfold Rotary.on_edge. cbn [fst snd].
  rewrite (process_new_value r w (fst s) (snd s)
             (_value r + edge_incr r (fst s) (snd s))).
  - reflexivity.
  - destruct (Z.eqb_spec (_range_mode r) Rotary.RANGE_WRAP);
      [contradiction |].
    destruct (Z.eqb_spec (_range_mode r) Rotary.RANGE_BOUNDED);
      [contradiction | reflexivity].
Qed.

Lemma step_of_opposite (state incr reverse : Z) :
  Rotary.step_of state incr (- reverse)
  = - Rotary.step_of state incr reverse.
Proof. unfold Rotary.step_of. ring. Qed.

(** Two trackers that decode alike and differ in the direction sense
    move by opposite amounts, edge after edge; their values and their
    worlds may be anything. *)
Lemma deltas_mirror (samples : list (bool * bool)) :
  forall r1 r2 w1 w2,
    _state r2 = _state r1 -> _half_step r2 = _half_step r1 ->
    _invert r2 = _invert r1 -> _incr r2 = _incr r1 ->
    _range_mode r2 = _range_mode r1 ->
    _reverse r2 = - _reverse r1 ->
    _range_mode r1 <> Rotary.RANGE_WRAP ->
    _range_mode r1 <> Rotary.RANGE_BOUNDED ->
    Rotary.deltas samples (r2, w2)
    = map Z.opp (Rotary.deltas samples (r1, w1)).
Proof.
  induction samples as [| s samples IH];
    intros r1 r2 w1 w2 Hs Hh Hi Hn Hm Hr Hw Hb; [reflexivity |].
  cbn [Rotary.deltas map fst].
  assert (edge_incr r2 (fst s) (snd s) = - edge_incr r1 (fst s) (snd s))
    as Hstep.
  { unfold edge_incr, edge_state. rewrite Hs, Hh, Hi, Hn, Hr.
    apply step_of_opposite. }
  f_equal.
  - rewrite !on_edge_unbounded_value by congruence. lia.
  - pose proof (on_edge_config s r1 w1) as C1.
    pose proof (on_edge_config s r2 w2) as C2.
    pose proof (on_edge_state s r1 w1) as S1.
    pose proof (on_edge_state s r2 w2) as S2.
    cbv zeta in C1, C2.
    destruct (Rotary.on_edge s (r1, w1)) as [r1' w1'].
    destruct (Rotary.on_edge s (r2, w2)) as [r2' w2'].
    cbn [fst] in *.
    destruct C1 as (_ & _ & A1 & B1 & M1 & H1 & I1 & _).
    destruct C2 as (_ & _ & A2 & B2 & M2 & H2 & I2 & _).
    apply IH; congruence.
Qed.

End Reversal.

(** C8, as the code has it. When no range policy is in force (the range
    mode is neither wrap nor bounded), two trackers that are identical
    except for the reversed flag produce, for every sequence of samples,
    delta sequences that are the elementwise negation of each other. *)
Theorem reversal_negates_unbounded_deltas {World : Type}
    (r : Rotary World) (w : World) (samples : list (bool * bool)) :
  _range_mode r <> Rotary.RANGE_WRAP ->
  _range_mode r <> Rotary.RANGE_BOUNDED ->
  Rotary.deltas samples (Rotary.with_reverse true r, w)
  = map Z.opp (Rotary.deltas samples (Rotary.with_reverse false r, w)).
Proof.
  intros Hw Hb. apply deltas_mirror; try reflexivity; assumption.
Qed.

Lemma reversal_negates_unbounded_deltas_witness :
  _range_mode plain_knob <> Rotary.RANGE_WRAP /\
  _range_mode plain_knob <> Rotary.RANGE_BOUNDED /\
  Rotary.deltas (cw_detent ++ ccw_detent)
                (Rotary.with_reverse true plain_knob, tt)
  = map Z.opp (Rotary.deltas (cw_detent ++ ccw_detent)
                             (Rotary.with_reverse false plain_knob, tt)).
Proof.
  split; [vm_compute; discriminate |]. split; [vm_compute; discriminate |].
  apply (reversal_negates_unbounded_deltas plain_knob tt);
    vm_compute; discriminate.
Defined.

(** The claim fails under a range policy: the knob [r_l] is bounded and
    starts at its lower bound, so the clockwise detent moves it up by
    one, while the reversed knob is held at the bound and does not
    move. *)
Lemma reversal_not_negated_at_bound :
  Rotary.deltas cw_detent (Rotary.with_reverse false r_l, tt) = [0; 0; 0; 1]
  /\ Rotary.deltas cw_detent (Rotary.with_reverse true r_l, tt) = [0; 0; 0; 0]
  /\ Rotary.deltas cw_detent (Rotary.with_reverse true r_l, tt)
     <> map Z.opp (Rotary.deltas cw_detent (Rotary.with_reverse false r_l, tt)).
Proof.
  split; [reflexivity |]. split; [reflexivity |].
  vm_compute. discriminate.
Qed.

(** * Further properties of the tracker *)

(** ** One edge, in general *)

Section OneEdge.
Context {World : Type}.
Implicit Types (r : Rotary World) (w : World) (s : bool * bool).

Lemma on_edge_cases s r w :
  Rotary.on_edge s (r, w)
  = match apply_range r (edge_incr r (fst s) (snd s)) with
    | inr v => (Rotary.with_value v
                  (Rotary.with_state (edge_state r (fst s) (snd s)) r),
                world_after r w v)
    | inl _ => (Rotary.with_state (edge_state r (fst s) (snd s)) r, w)
    end.
Proof.
  unfold Rotary.on_edge. cbn [fst snd].
  destruct (apply_range r (edge_incr r (fst s) (snd s))) as [e | v] eqn:E;
    unfold apply_range in E.
  - rewrite (process_range_error r w _ _ e E). reflexivity.
  - rewrite (process_new_value r w _ _ v E). reflexivity.
Qed.

Lemma step_of_values (state incr reverse : Z) :
  Rotary.step_of state incr reverse
  = match event_of state with
    | NoDirection => 0
    | Clockwise => incr * reverse
    | CounterClockwise => - (incr * reverse)
    end.
Proof.
  unfold Rotary.step_of, event_of.
  destruct (Z.land state _DIR_MASK =? _DIR_CW); [reflexivity |].
  destruct (Z.land state _DIR_MASK =? _DIR_CCW); ring.
Qed.

Lemma on_edge_unbounded s r w :
  _range_mode r <> Rotary.RANGE_WRAP ->
  _range_mode r <> Rotary.RANGE_BOUNDED ->
  Rotary.on_edge s (r, w)
  = (Rotary.with_value (_value r + edge_incr r (fst s) (snd s))
       (Rotary.with_state (edge_state r (fst s) (snd s)) r),
     world_after r w (_value r + edge_incr r (fst s) (snd s))).
Proof.
  intros Hw Hb. rewrite on_edge_cases. unfold apply_range.
  destruct (Z.eqb_spec (_range_mode r) Rotary.RANGE_WRAP); [contradiction |].
  destruct (Z.eqb_spec (_range_mode r) Rotary.RANGE_BOUNDED);
    [contradiction | reflexivity].
Qed.

Lemma on_edge_bounded s r w :
  _range_mode r = Rotary.RANGE_BOUNDED ->
  Rotary.on_edge s (r, w)
  = (Rotary.with_value
       (_bound (_value r) (edge_incr r (fst s) (snd s))
               (_min_val r) (_max_val r))
       (Rotary.with_state (edge_state r (fst s) (snd s)) r),
     world_after r w
       (_bound (_value r) (edge_incr r (fst s) (snd s))
               (_min_val r) (_max_val r))).
Proof.
  intros Hb. rewrite on_edge_cases. unfold apply_range. rewrite Hb.
  reflexivity.
Qed.

End OneEdge.

(** X1. The listeners are run on an edge exactly when the edge changes
    the tracked value: the world after the edge is the world before it
    when the value is the same, and otherwise the world that one pass
    over the listener list leaves. *)
Theorem listeners_run_once_on_change {World : Type}
    (s : bool * bool) (r : Rotary World) (w : World) :
  snd (Rotary.on_edge s (r, w))
  = if _value (fst (Rotary.on_edge s (r, w))) =? _value r
    then w
    else store_of (call_each (_listener r) w).
Proof.
  rewrite on_edge_cases.
  destruct (apply_range r (edge_incr r (fst s) (snd s))) as [e | v]; cbn.
  - rewrite Z.eqb_refl. reflexivity.
  - unfold world_after. rewrite (Z.eqb_sym v).
    destruct (_value r =? v); cbn; [reflexivity |].
    destruct (_listener r); reflexivity.
Qed.

(** ** Whole detents *)

Ltac compute_decoder :=
  repeat match goal with
         | |- context [event_of ?x] =>
             let y := eval vm_compute in (event_of x) in
             change (event_of x) with y
         end;
  repeat match goal with
         | |- context [state_bits ?x] =>
             let y := eval vm_compute in (state_bits x) in
             change (state_bits x) with y
         end;
  cbv iota.

(** X2. Without a range policy, in full-step mode and without inversion,
    a clockwise detent from rest adds [incr * reverse] to the value and a
    counter-clockwise detent subtracts it, and the decoder is at rest
    again after either. On the clockwise detent the listeners are run
    once, in order, from the world as it was, when that amount is not
    zero, and not at all when it is zero. *)
Theorem detent_moves_unbounded {World : Type} (r : Rotary World) (w : World) :
  _half_step r = false -> _invert r = false ->
  state_bits (_state r) = _R_START ->
  _range_mode r <> Rotary.RANGE_WRAP ->
  _range_mode r <> Rotary.RANGE_BOUNDED ->
  let cw := Rotary.run_end cw_detent (r, w) in
  let ccw := Rotary.run_end ccw_detent (r, w) in
  _value (fst cw) = _value r + _incr r * _reverse r
  /\ _value (fst ccw) = _value r - _incr r * _reverse r
  /\ snd cw = (if _incr r * _reverse r =? 0 then w
              else store_of (call_each (_listener r) w))
  /\ state_bits (_state (fst cw)) = _R_START
  /\ state_bits (_state (fst ccw)) = _R_START.
Proof.
  intros Hh Hi Hs Hw Hb.
  unfold Rotary.run_end, cw_detent, ccw_detent. cbn [fold_left].
  destruct r as [mn mx inc rev mode v st hs inv ls irq].
  cbn [_half_step _invert _state _range_mode] in *. subst hs inv.
  repeat (rewrite on_edge_unbounded by (cbn; assumption)).
  unfold edge_incr, edge_state, world_after.
  cbn [fst snd _range_mode _value _min_val _max_val _incr _reverse _state
       _half_step _invert _listener Rotary.with_state Rotary.with_value].
  rewrite !(next_state_bits false st), Hs.
  rewrite !step_of_values.
  compute_decoder.
  rewrite ?Z.add_0_r, ?Z.eqb_refl. cbn [negb andb].
  assert (forall d, (if negb (v =? v + d) && negb (Nat.eqb (length ls) 0)
                     then store_of (call_each ls w) else w)
                    = (if d =? 0 then w else store_of (call_each ls w))) as Hd.
  { intros d. destruct (Z.eqb_spec v (v + d)), (Z.eqb_spec d 0);
      try lia; cbn [negb andb]; [reflexivity |].
    destruct ls; reflexivity. }
  rewrite !Hd.
  repeat split; try reflexivity; lia.
Qed.

Lemma detent_moves_unbounded_witness :
  let r := knob_with [logs 7] in
  _half_step r = false /\ _invert r = false /\
  state_bits (_state r) = _R_START /\
  _range_mode r <> Rotary.RANGE_WRAP /\
  _range_mode r <> Rotary.RANGE_BOUNDED /\
  _value (fst (Rotary.run_end cw_detent (r, []))) = _value r + _incr r * _reverse r
  /\ snd (Rotary.run_end cw_detent (r, []))
     = (if _incr r * _reverse r =? 0 then []
        else store_of (call_each (_listener r) [])).
Proof.
  intros r.
  split; [reflexivity |]. split; [reflexivity |]. split; [reflexivity |].
  split; [vm_compute; discriminate |]. split; [vm_compute; discriminate |].
  pose proof (detent_moves_unbounded r []) as H.
  assert (_range_mode r <> Rotary.RANGE_WRAP) as Hw
      by (vm_compute; discriminate).
  assert (_range_mode r <> Rotary.RANGE_BOUNDED) as Hb
      by (vm_compute; discriminate).
  specialize (H eq_refl eq_refl eq_refl Hw Hb). cbv zeta in H.
  destruct H as (H1 & _ & H3 & _). split; assumption.
Defined.

Section Detents.
Context {World : Type}.
Implicit Types (r : Rotary World) (w : World).
Implicit Types (rw : Rotary World * World).

Lemma run_end_app (a b : list (bool * bool)) rw :
  Rotary.run_end (a ++ b) rw = Rotary.run_end b (Rotary.run_end a rw).
Proof. unfold Rotary.run_end. apply fold_left_app. Qed.

Lemma detents_succ (n : nat) (d : list (bool * bool)) :
  detents (S n) d = d ++ detents n d.
Proof. reflexivity. Qed.

(** One detent of a bounded tracker whose value is within its bounds. *)
Lemma bounded_detent r w :
  _half_step r = false -> _invert r = false ->
  state_bits (_state r) = _R_START ->
  _range_mode r = Rotary.RANGE_BOUNDED ->
  _min_val r <= _value r <= _max_val r ->
  let step := _incr r * _reverse r in
  _value (fst (Rotary.run_end cw_detent (r, w)))
  = _bound (_value r) step (_min_val r) (_max_val r)
  /\ _value (fst (Rotary.run_end ccw_detent (r, w)))
     = _bound (_value r) (- step) (_min_val r) (_max_val r)
  /\ state_bits (_state (fst (Rotary.run_end cw_detent (r, w)))) = _R_START
  /\ state_bits (_state (fst (Rotary.run_end ccw_detent (r, w)))) = _R_START.
Proof.
  intros Hh Hi Hs Hb Hv.
  unfold Rotary.run_end, cw_detent, ccw_detent. cbn [fold_left].
  destruct r as [mn mx inc rev mode v st hs inv ls irq].
  cbn [_half_step _invert _state _range_mode _min_val _max_val _value
       _incr _reverse] in *.
  subst hs inv.
  repeat (rewrite on_edge_bounded by (cbn; assumption)).
  unfold edge_incr, edge_state.
  cbn [fst snd _range_mode _value _min_val _max_val _incr _reverse _state
       _half_step _invert _listener Rotary.with_state Rotary.with_value].
  rewrite !(next_state_bits false st), Hs.
  rewrite !step_of_values.
  compute_decoder.
  unfold _bound. repeat split; try reflexivity; lia.
Qed.

End Detents.

(** X3. A bounded tracker in full-step mode, at rest, with its value
    within the bounds and a non-negative step [incr * reverse]: [n]
    clockwise detents take the value to [min(max_val, value + n * step)],
    and [n] counter-clockwise detents to [max(min_val, value - n * step)];
    turning on at a bound changes nothing. *)
Theorem bounded_detents_accumulate {World : Type}
    (n : nat) (r : Rotary World) (w : World) :
  _half_step r = false -> _invert r = false ->
  state_bits (_state r) = _R_START ->
  _range_mode r = Rotary.RANGE_BOUNDED ->
  _min_val r <= _value r <= _max_val r ->
  0 <= _incr r * _reverse r ->
  _value (fst (Rotary.run_end (detents n cw_detent) (r, w)))
  = Z.min (_max_val r) (_value r + Z.of_nat n * (_incr r * _reverse r))
  /\ _value (fst (Rotary.run_end (detents n ccw_detent) (r, w)))
     = Z.max (_min_val r) (_value r - Z.of_nat n * (_incr r * _reverse r)).
Proof.
  revert r w. induction n as [| n IH]; intros r w Hh Hi Hs Hb Hv Hstep.
  - cbn. lia.
  - rewrite !detents_succ, !run_end_app.
    destruct (bounded_detent r w Hh Hi Hs Hb Hv) as (Vcw & Vccw & Scw & Sccw).
    pose proof (run_end_config cw_detent (r, w)) as Ccw.
    pose proof (run_end_config ccw_detent (r, w)) as Cccw.
    cbv zeta in Ccw, Cccw. cbn [fst] in Ccw, Cccw.
    destruct (Rotary.run_end cw_detent (r, w)) as [r1 w1].
    destruct (Rotary.run_end ccw_detent (r, w)) as [r2 w2].
    cbn [fst] in *.
    destruct Ccw as (Ch1 & Ci1 & Cn1 & Cr1 & Cm1 & Cmin1 & Cmax1).
    destruct Cccw as (Ch2 & Ci2 & Cn2 & Cr2 & Cm2 & Cmin2 & Cmax2).
    assert (0 <= Z.of_nat n * (_incr r * _reverse r)) as Hn
        by (apply Z.mul_nonneg_nonneg; lia).
    rewrite Nat2Z.inj_succ, Z.mul_succ_l.
    unfold _bound in Vcw, Vccw.
    split.
    + assert (_min_val r1 <= _value r1 <= _max_val r1) as Hv1
          by (rewrite Cmin1, Cmax1, Vcw; lia).
      assert (0 <= _incr r1 * _reverse r1) as Hs1
          by (rewrite Cn1, Cr1; exact Hstep).
      destruct (IH r1 w1) as [E _]; try congruence.
      rewrite E, Cmax1, Cn1, Cr1, Vcw. lia.
    + assert (_min_val r2 <= _value r2 <= _max_val r2) as Hv2
          by (rewrite Cmin2, Cmax2, Vccw; lia).
      assert (0 <= _incr r2 * _reverse r2) as Hs2
          by (rewrite Cn2, Cr2; exact Hstep).
      destruct (IH r2 w2) as [_ E]; try congruence.
      rewrite E, Cmin2, Cn2, Cr2, Vccw. lia.
Qed.

(** The knob [r_l] as the program seeds it, [r_l.set(value=4)]: sixteen
    clockwise detents take it to 20, where it stays. *)
Lemma bounded_detents_accumulate_witness :
  let r := Rotary.set (Some 4) None None None None None r_l in
  _half_step r = false /\ _invert r = false /\
  state_bits (_state r) = _R_START /\
  _range_mode r = Rotary.RANGE_BOUNDED /\
  _min_val r <= _value r <= _max_val r /\
  0 <= _incr r * _reverse r /\
  _value (fst (Rotary.run_end (detents 16 cw_detent) (r, tt))) = 20 /\
  _value (fst (Rotary.run_end (detents 19 cw_detent) (r, tt))) = 20.
Proof.
  intros r.
  assert (_min_val r <= _value r <= _max_val r) as Hv
      by (vm_compute; split; discriminate).
  assert (0 <= _incr r * _reverse r) as Hs by (vm_compute; discriminate).
  do 6 (split; [first [reflexivity | exact Hv | exact Hs] |]).
  split.
  - apply (bounded_detents_accumulate 16 r tt eq_refl eq_refl eq_refl
                                      eq_refl Hv Hs).
  - apply (bounded_detents_accumulate 19 r tt eq_refl eq_refl eq_refl
                                      eq_refl Hv Hs).
Defined.

(** After the sixteen detents, one counter-clockwise detent gives 19. *)
Example r_l_back_from_the_bound :
  _value (fst (Rotary.run_end (detents 17 cw_detent ++ ccw_detent)
                (Rotary.set (Some 4) None None None None None r_l, tt)))
  = 19.
Proof. reflexivity. Qed.

(** ** Range policies at their edges *)

(** X4. A bounded tracker whose lower bound is above its upper bound is
    sent to the upper bound by every edge, whatever the sample, the
    value before and the direction decoded. *)
Theorem inverted_bounds_pin_to_upper {World : Type}
    (s : bool * bool) (r : Rotary World) (w : World) :
  _range_mode r = Rotary.RANGE_BOUNDED ->
  _max_val r < _min_val r ->
  _value (fst (Rotary.on_edge s (r, w))) = _max_val r.
Proof.
  intros Hb Hinv. rewrite on_edge_bounded by exact Hb.
  cbn [fst _value Rotary.with_value]. unfold _bound. lia.
Qed.

Lemma inverted_bounds_pin_to_upper_witness :
  let r := Rotary.set (Some 7) (Some 9) None (Some 3) None None r_l in
  _range_mode r = Rotary.RANGE_BOUNDED /\ _max_val r < _min_val r /\
  _value r = 7 /\
  _value (fst (Rotary.on_edge (false, false) (r, tt))) = 3.
Proof.
  intros r. split; [reflexivity |]. split; [reflexivity |].
  split; [reflexivity |].
  apply (inverted_bounds_pin_to_upper (false, false) r tt); reflexivity.
Defined.

(** X5. A wrapping tracker whose range [max_val - min_val + 1] is zero
    raises [ZeroDivisionError] on every edge: the value and the world
    stay as they were and no listener runs, but the decoder state has
    already moved on. *)
Theorem empty_wrap_range_raises {World : Type}
    (clk dt : bool) (r : Rotary World) (w : World) :
  _range_mode r = Rotary.RANGE_WRAP ->
  _max_val r - _min_val r + 1 = 0 ->
  Rotary._process_rotary_pins clk dt r w
  = Raise ZeroDivisionError
          (Rotary.with_state (edge_state r clk dt) r, w).
Proof.
  intros Hm Hz. apply process_range_error. rewrite Hm.
  change (Rotary.RANGE_WRAP =? Rotary.RANGE_WRAP) with true. cbv iota.
  apply wrap_zero_range. exact Hz.
Qed.

Lemma empty_wrap_range_raises_witness :
  let r := Rotary.set None (Some 5) None (Some 4) None
                      (Some Rotary.RANGE_WRAP) r_l in
  _range_mode r = Rotary.RANGE_WRAP /\ _max_val r - _min_val r + 1 = 0 /\
  raised (Rotary._process_rotary_pins true false r tt)
  = Some ZeroDivisionError /\
  _state (fst (store_of (Rotary._process_rotary_pins true false r tt)))
  = _R_CW_1.
Proof.
  intros r. split; [reflexivity |]. split; [reflexivity |].
  rewrite (empty_wrap_range_raises true false r tt eq_refl eq_refl).
  split; reflexivity.
Defined.

(** X6. With a negative range (the upper bound more than one below the
    lower bound) [_wrap] still returns, and its result lies above
    [upper + 1] and at most at [lower]: outside the interval that the
    bounds were meant to describe, except for [lower] itself. *)
Theorem wrap_negative_range (value incr lower_bound upper_bound : Z) :
  upper_bound - lower_bound + 1 < 0 ->
  exists result,
    _wrap value incr lower_bound upper_bound = inr result
    /\ upper_bound + 1 < result <= lower_bound.
Proof.
  intros Hneg. eexists. split; [apply wrap_value; lia |].
  pose proof (Z.mod_neg_bound (value + incr - lower_bound)
                              (upper_bound - lower_bound + 1) Hneg) as B.
  lia.
Qed.

Lemma wrap_negative_range_witness :
  1 - 5 + 1 < 0 /\
  exists result, _wrap 3 1 5 1 = inr result /\ 1 + 1 < result <= 5.
Proof.
  split; [lia |]. apply (wrap_negative_range 3 1 5 1). lia.
Defined.

(** X7. Wrapping composes: wrapping by [a] and then by [b] is wrapping
    by [a + b], for every non-empty range and every starting value. *)
Theorem wrap_twice (v a b lo hi : Z) :
  hi - lo + 1 <> 0 ->
  match _wrap v a lo hi with
  | inr v' => _wrap v' b lo hi
  | inl e => inl e
  end = _wrap v (a + b) lo hi.
Proof.
  intros Hr. rewrite !wrap_value by exact Hr. f_equal. f_equal.
  set (range := hi - lo + 1) in *.
  replace (lo + (v + a - lo) mod range + b - lo)
    with ((v + a - lo) mod range + b) by ring.
  rewrite Zplus_mod_idemp_l. f_equal. ring.
Qed.

Lemma wrap_twice_witness :
  20 - 1 + 1 <> 0 /\
  match _wrap 4 33 1 20 with
  | inr v' => _wrap v' (-50) 1 20
  | inl e => inl e
  end = _wrap 4 (33 + -50) 1 20.
Proof.
  split; [lia |]. apply (wrap_twice 4 33 (-50) 1 20). lia.
Defined.

(** X8. Wrapping is periodic in the increment: adding any multiple of
    the range to the increment does not change the result. *)
Theorem wrap_periodic (v k n lo hi : Z) :
  hi - lo + 1 <> 0 ->
  _wrap v (k + n * (hi - lo + 1)) lo hi = _wrap v k lo hi.
Proof.
  intros Hr. rewrite !wrap_value by exact Hr. f_equal. f_equal.
  replace (v + (k + n * (hi - lo + 1)) - lo)
    with (v + k - lo + n * (hi - lo + 1)) by ring.
  apply Z_mod_plus_full.
Qed.

Lemma wrap_periodic_witness :
  6 - 0 + 1 <> 0 /\ _wrap 2 (3 + -4 * (6 - 0 + 1)) 0 6 = _wrap 2 3 0 6.
Proof.
  split; [lia |]. apply (wrap_periodic 2 3 (-4) 0 6). lia.
Defined.

(** ** The decoder on its own *)

Section Decoding.
Context {World : Type}.
Implicit Types (r : Rotary World) (w : World).

Lemma run_states_decode (samples : list (bool * bool)) r w :
  map (fun rw => _state (fst rw)) (Rotary.run samples (r, w))
  = decode (_half_step r) (_invert r) (_state r) samples.
Proof.
  revert r w. induction samples as [| s samples IH]; intros r w;
    [reflexivity |].
  cbn [Rotary.run map decode].
  pose proof (on_edge_state s r w) as S.
  pose proof (on_edge_config s r w) as C. cbv zeta in C.
  destruct (Rotary.on_edge s (r, w)) as [r1 w1]. cbn [fst] in *.
  destruct C as (_ & _ & _ & _ & _ & Ch & Ci & _).
  rewrite IH, Ch, Ci, S. reflexivity.
Qed.

Lemma events_of_decode (samples : list (bool * bool)) r w :
  events_of samples (r, w)
  = map event_of (decode (_half_step r) (_invert r) (_state r) samples).
Proof.
  unfold events_of. rewrite <- (run_states_decode samples r w), map_map.
  reflexivity.
Qed.

End Decoding.

Lemma decode_bits (half_step invert : bool) (state : Z)
    (samples : list (bool * bool)) :
  decode half_step invert state samples
  = decode half_step invert (state_bits state) samples.
Proof.
  destruct samples as [| s samples]; [reflexivity |].
  cbn [decode]. rewrite <- (next_state_bits half_step state). reflexivity.
Qed.

Lemma decode_app (half_step invert : bool) (state : Z)
    (a b : list (bool * bool)) :
  decode half_step invert state (a ++ b)
  = decode half_step invert state a
    ++ decode half_step invert
              (last (decode half_step invert state a) state) b.
Proof.
  revert state. induction a as [| s a IH]; intros state; [reflexivity |].
  cbn [app decode]. rewrite IH, last_cons_default. reflexivity.
Qed.

(** A detent that brings the decoder back to the state bits it started
    from reports the same events every time it is repeated. *)
Lemma decode_detents_events (half_step invert : bool) (bits : Z)
    (detent : list (bool * bool)) (evs : list DirectionEvent) :
  map event_of (decode half_step invert bits detent) = evs ->
  state_bits (last (decode half_step invert bits detent) bits) = bits ->
  forall (n : nat) (state : Z),
    state_bits state = bits ->
    map event_of (decode half_step invert state (detents n detent))
    = concat (repeat evs n).
Proof.
  intros Hev Hback n. induction n as [| n IH]; intros state Hs;
    [reflexivity |].
  rewrite detents_succ, decode_app, map_app.
  rewrite (decode_bits half_step invert state detent), Hs, Hev.
  cbn [repeat concat]. f_equal.
  apply IH.
  destruct detent as [| s detent]; [exact Hs |].
  cbn [decode] in Hback |- *. rewrite last_cons_default in Hback |- *.
  exact Hback.
Qed.

(** X9. In half-step mode, without inversion, every detent reports two
    events, on its second and on its fourth sample; and the direction is
    the opposite of the one the full-step table reports for the same
    samples: the sequence 10, 00, 01, 11 gives counter-clockwise events,
    and 01, 00, 10, 11 clockwise ones. *)
Theorem half_step_detents {World : Type}
    (n : nat) (r : Rotary World) (w : World) :
  _half_step r = true -> _invert r = false ->
  state_bits (_state r) = _R_START ->
  events_of (detents n cw_detent) (r, w)
  = concat (repeat [NoDirection; CounterClockwise;
                    NoDirection; CounterClockwise] n)
  /\ events_of (detents n ccw_detent) (r, w)
     = concat (repeat [NoDirection; Clockwise; NoDirection; Clockwise] n).
Proof.
  intros Hh Hi Hs. rewrite !events_of_decode, Hh, Hi.
  split; apply (decode_detents_events true false _R_START);
    solve [reflexivity | exact Hs].
Qed.

Lemma half_step_detents_witness :
  let r : Rotary unit :=
    RotaryIRQ 0 10 1 false Rotary.RANGE_UNBOUNDED true false in
  _half_step r = true /\ _invert r = false /\
  state_bits (_state r) = _R_START /\
  events_of (detents 2 cw_detent) (r, tt)
  = concat (repeat [NoDirection; CounterClockwise;
                    NoDirection; CounterClockwise] 2).
Proof.
  intros r. split; [reflexivity |]. split; [reflexivity |].
  split; [reflexivity |].
  apply (half_step_detents 2 r tt); reflexivity.
Defined.

(** X10. In half-step mode the decoder never has the state bits 6 or 7,
    wherever it starts: the last two rows of the half-step table are
    never looked up after the first edge. *)
Theorem half_step_rows_unused {World : Type}
    (samples : list (bool * bool)) (r : Rotary World) (w : World) :
  _half_step r = true ->
  Forall (fun rw' => 0 <= state_bits (_state (fst rw')) <= 5)
         (Rotary.run samples (r, w)).
Proof.
  intros Hh.
  assert (Forall (fun st => 0 <= state_bits st <= 5)
                 (map (fun rw => _state (fst rw)) (Rotary.run samples (r, w))))
    as H.
  { rewrite run_states_decode, Hh.
    generalize (_state r). generalize (_invert r).
    induction samples as [| s samples IH]; intros invert state;
      constructor; [| apply IH].
    rewrite (next_state_bits true state).
    each_state state; rewrite <- Hbits;
      destruct invert, (fst s), (snd s); vm_compute; split; discriminate. }
  rewrite Forall_map in H. exact H.
Qed.

Lemma half_step_rows_unused_witness :
  let r : Rotary unit :=
    Rotary.with_state 7
      (RotaryIRQ 0 10 1 false Rotary.RANGE_UNBOUNDED true false) in
  _half_step r = true /\
  Forall (fun rw' => 0 <= state_bits (_state (fst rw')) <= 5)
         (Rotary.run (cw_detent ++ [(false, true)] ++ ccw_detent) (r, tt)).
Proof.
  intros r. split; [reflexivity |].
  apply (half_step_rows_unused _ r tt). reflexivity.
Defined.

(** X11. A call of [set] in the middle of a detent discards the part of
    the detent already seen: in full-step mode, without inversion, the
    remaining samples of a clockwise or counter-clockwise detent report
    no direction. *)
Theorem set_discards_partial_detent {World : Type}
    (r : Rotary World) (w : World)
    (value min_val incr max_val : option Z) (reverse : option bool)
    (range_mode : option Z) (k : nat) :
  _half_step r = false -> _invert r = false ->
  (0 < k)%nat ->
  let r' := Rotary.set value min_val incr max_val reverse range_mode r in
  events_of (skipn k cw_detent) (r', w) = repeat NoDirection (4 - k)
  /\ events_of (skipn k ccw_detent) (r', w) = repeat NoDirection (4 - k).
Proof.
  intros Hh Hi Hk r'. rewrite !events_of_decode.
  change (_half_step r') with (_half_step r).
  change (_invert r') with (_invert r).
  change (_state r') with _R_START. rewrite Hh, Hi.
  destruct k as [| [| [| [| [| k]]]]]; [lia | ..]; split; reflexivity.
Qed.

Lemma set_discards_partial_detent_witness :
  let before := fst (Rotary.run_end [(true, false); (false, false)]
                                    (r_l, tt)) in
  _half_step before = false /\ _invert before = false /\ (0 < 2)%nat /\
  _state before = _R_CW_2 /\
  events_of (skipn 2 cw_detent)
            (Rotary.set (Some 4) None None None None None before, tt)
  = repeat NoDirection (4 - 2).
Proof.
  intros before. split; [reflexivity |]. split; [reflexivity |].
  split; [lia |]. split; [reflexivity |].
  apply (set_discards_partial_detent before tt (Some 4) None None None
                                     None None 2);
    [reflexivity | reflexivity | lia].
Defined.

(** X12. Signal inversion does not reverse the direction. In full-step
    mode an inverted tracker that starts at rest reports nothing for the
    first detent and then one event per detent, on the second sample of
    the detent, with the direction that the tracker without inversion
    reports. *)
Theorem inverted_signal_keeps_direction {World : Type}
    (n : nat) (r : Rotary World) (w : World) :
  _half_step r = false -> _invert r = true ->
  state_bits (_state r) = _R_START ->
  events_of (detents (S n) cw_detent) (r, w)
  = repeat NoDirection 4
    ++ concat (repeat [NoDirection; Clockwise; NoDirection; NoDirection] n)
  /\ events_of (detents (S n) ccw_detent) (r, w)
     = repeat NoDirection 4
       ++ concat (repeat [NoDirection; CounterClockwise;
                          NoDirection; NoDirection] n).
Proof.
  intros Hh Hi Hs. rewrite !events_of_decode, Hh, Hi.
  rewrite !detents_succ, !decode_app, !map_app.
  rewrite !(decode_bits false true (_state r)), Hs.
  split; (f_equal; try reflexivity).
  - apply (decode_detents_events false true _R_CW_2); reflexivity.
  - apply (decode_detents_events false true _R_CCW_2); reflexivity.
Qed.

Lemma inverted_signal_keeps_direction_witness :
  let r : Rotary unit :=
    RotaryIRQ 0 10 1 false Rotary.RANGE_UNBOUNDED false true in
  _half_step r = false /\ _invert r = true /\
  state_bits (_state r) = _R_START /\
  events_of (detents 3 cw_detent) (r, tt)
  = repeat NoDirection 4
    ++ concat (repeat [NoDirection; Clockwise; NoDirection; NoDirection] 2).
Proof.
  intros r. split; [reflexivity |]. split; [reflexivity |].
  split; [reflexivity |].
  apply (inverted_signal_keeps_direction 2 r tt); reflexivity.
Defined.

(** ** Removing listeners *)

Section RemoveListener.
Context {World : Type}.
Variable same : Listener World -> Listener World -> bool.
Implicit Types (r : Rotary World) (l : Listener World).

Lemma existsb_none l (ls : list (Listener World)) :
  (forall x, In x ls -> same l x = false) -> existsb (same l) ls = false.
Proof.
  induction ls as [| y ls IH]; intros H; [reflexivity |].
  cbn. rewrite (H y (or_introl eq_refl)). apply IH.
  intros x Hx. apply H. right. exact Hx.
Qed.

Lemma list_remove_first l (pre post : list (Listener World))
    (x : Listener World) :
  (forall y, In y pre -> same l y = false) ->
  same l x = true ->
  list_remove same l (pre ++ x :: post) = pre ++ post
  /\ existsb (same l) (pre ++ x :: post) = true.
Proof.
  intros Hpre Hx. induction pre as [| y pre IH]; cbn.
  - rewrite Hx. split; reflexivity.
  - rewrite (Hpre y (or_introl eq_refl)). cbn.
    destruct IH as [IH1 IH2].
    + intros z Hz. apply Hpre. right. exact Hz.
    + rewrite IH1, IH2. split; reflexivity.
Qed.

End RemoveListener.

(** X13. Removing a listener that compares equal to none of the
    installed ones raises [ValueError]; no tracker is returned, so the
    listener list is as it was. *)
Theorem remove_unknown_listener_raises {World : Type}
    (same : Listener World -> Listener World -> bool)
    (l : Listener World) (r : Rotary World) :
  (forall x, In x (_listener r) -> same l x = false) ->
  remove_listener same l r = inl not_an_installed_listener.
Proof.
  intros H. unfold remove_listener.
  rewrite (existsb_none same l (_listener r) H). reflexivity.
Qed.

Lemma remove_unknown_listener_raises_witness :
  (forall x, In x (_listener (knob_with [logs 1; logs 2])) ->
             same_on_empty_log (logs 3) x = false) /\
  remove_listener same_on_empty_log (logs 3) (knob_with [logs 1; logs 2])
  = inl not_an_installed_listener.
Proof.
  assert (forall x, In x (_listener (knob_with [logs 1; logs 2])) ->
                    same_on_empty_log (logs 3) x = false) as H.
  { intros x [Hx | [Hx | []]]; subst x; reflexivity. }
  split; [exact H |].
  apply (remove_unknown_listener_raises same_on_empty_log (logs 3)
           (knob_with [logs 1; logs 2]) H).
Defined.

(** X14. Removing an installed listener deletes its first occurrence
    only: later registrations of the same callback stay, the order of the
    others is kept, and every other attribute of the tracker (value,
    decoder state, bounds, increment, reversal, range mode, half-step and
    inversion flags, interrupt handle) is as it was. *)
Theorem remove_listener_takes_first {World : Type}
    (same : Listener World -> Listener World -> bool)
    (l x : Listener World) (pre post : list (Listener World))
    (r : Rotary World) :
  _listener r = pre ++ x :: post ->
  (forall y, In y pre -> same l y = false) ->
  same l x = true ->
  exists r',
    remove_listener same l r = inr r'
    /\ _listener r' = pre ++ post
    /\ _value r' = _value r /\ _state r' = _state r
    /\ _min_val r' = _min_val r /\ _max_val r' = _max_val r
    /\ _incr r' = _incr r /\ _reverse r' = _reverse r
    /\ _range_mode r' = _range_mode r
    /\ _half_step r' = _half_step r /\ _invert r' = _invert r
    /\ _irq r' = _irq r.
Proof.
  intros Hl Hpre Hx. unfold remove_listener. rewrite Hl.
  destruct (list_remove_first same l pre post x Hpre Hx) as [E1 E2].
  rewrite E2, E1. cbn [negb]. eexists. split; [reflexivity |].
  cbn. repeat split; reflexivity.
Qed.

Lemma remove_listener_takes_first_witness :
  let r := knob_with [logs 1; logs 2; logs 1] in
  _listener r = [] ++ logs 1 :: [logs 2; logs 1] /\
  (forall y, In y [] -> same_on_empty_log (logs 1) y = false) /\
  same_on_empty_log (logs 1) (logs 1) = true /\
  exists r',
    remove_listener same_on_empty_log (logs 1) r = inr r'
    /\ _listener r' = [] ++ [logs 2; logs 1].
Proof.
  intros r.
  assert (forall y : Listener (list nat),
             In y [] -> same_on_empty_log (logs 1) y = false) as H
      by (intros y []).
  split; [reflexivity |]. split; [exact H |]. split; [reflexivity |].
  destruct (remove_listener_takes_first same_on_empty_log (logs 1) (logs 1)
              [] [logs 2; logs 1] r eq_refl H eq_refl)
    as (r' & E & L & _).
  exists r'. split; assumption.
Defined.

(** Adding a callback that is already installed and removing it again
    does not restore the list: the earlier registration goes, so the
    callback is now called last. *)
Example add_then_remove_reorders :
  match remove_listener same_on_empty_log (logs 1)
          (Rotary.add_listener (logs 1) (knob_with [logs 1; logs 2])) with
  | inr r' => snd (Rotary.run_end cw_detent (r', []))
  | inl _ => []
  end = [2%nat; 1%nat]
  /\ snd (Rotary.run_end cw_detent (knob_with [logs 1; logs 2], []))
     = [1%nat; 2%nat].
Proof. split; reflexivity. Qed.

(** * The card reader *)

Lemma string_append_nil_r (s : String.string) :
  String.append s String.EmptyString = s.
Proof. induction s as [| c s IH]; cbn; [| rewrite IH]; reflexivity. Qed.

Lemma string_append_assoc (a b c : String.string) :
  String.append (String.append a b) c = String.append a (String.append b c).
Proof. induction a as [| x a IH]; cbn; [| rewrite IH]; reflexivity. Qed.

Lemma string_length_append (a b : String.string) :
  String.length (String.append a b)
  = (String.length a + String.length b)%nat.
Proof. induction a as [| x a IH]; cbn; [| rewrite IH]; reflexivity. Qed.

(** The loop with any string already accumulated. *)
Lemma uid_loop_accumulator (uid : list Z) (acc : String.string) :
  fold_left (fun mystring i => String.append (RFID.format_02X i) mystring)
            uid acc
  = String.append (RFID.uidToString uid) acc.
Proof.
  unfold RFID.uidToString. revert acc.
  induction uid as [| i uid IH]; intros acc; [reflexivity |].
  cbn [fold_left]. rewrite IH.
  rewrite (IH (String.append (RFID.format_02X i) String.EmptyString)).
  rewrite string_append_nil_r, string_append_assoc. reflexivity.
Qed.

Lemma uid_string_cons (i : Z) (uid : list Z) :
  RFID.uidToString (i :: uid)
  = String.append (RFID.uidToString uid) (RFID.format_02X i).
Proof.
  unfold RFID.uidToString at 1. cbn [fold_left].
  rewrite uid_loop_accumulator, string_append_nil_r. reflexivity.
Qed.

(** X15. [uidToString] writes the identifier back to front: the string of
    a concatenation is the string of the second part followed by the
    string of the first, for all integers. *)
Theorem uid_string_of_concatenation (a b : list Z) :
  RFID.uidToString (a ++ b)
  = String.append (RFID.uidToString b) (RFID.uidToString a).
Proof.
  induction a as [| i a IH].
  - cbn [app]. change (RFID.uidToString []) with String.EmptyString.
    rewrite string_append_nil_r. reflexivity.
  - cbn [app]. rewrite !uid_string_cons, IH, string_append_assoc.
    reflexivity.
Qed.

Lemma all_bytes_round_trip :
  forallb RFID.byte_round_trip (map Z.of_nat (seq 0 256)) = true.
Proof. vm_compute. reflexivity. Qed.

Lemma byte_round_trips (b : Z) :
  0 <= b < 256 -> RFID.byte_round_trip b = true.
Proof.
  intros Hb. pose proof all_bytes_round_trip as H.
  rewrite forallb_forall in H. apply H.
  apply in_map_iff. exists (Z.to_nat b). split; [lia |].
  apply in_seq. lia.
Qed.

(** A byte is written as two upper-case hexadecimal digits that spell
    it. *)
Lemma byte_format (b : Z) :
  0 <= b < 256 ->
  exists c1 c2 x y,
    RFID.format_02X b
    = String.String c1 (String.String c2 String.EmptyString)
    /\ RFID.hex_value c1 = Some x /\ RFID.hex_value c2 = Some y
    /\ 16 * x + y = b.
Proof.
  intros Hb. pose proof (byte_round_trips b Hb) as H.
  unfold RFID.byte_round_trip in H.
  destruct (RFID.format_02X b) as [| c1 [| c2 [| c3 s]]]; try discriminate.
  destruct (RFID.hex_value c1) as [x |] eqn:E1; try discriminate.
  destruct (RFID.hex_value c2) as [y |] eqn:E2; try discriminate.
  exists c1, c2, x, y.
  split; [reflexivity |]. split; [exact E1 |]. split; [exact E2 |].
  apply Z.eqb_eq. exact H.
Qed.

(** X16. The string of an identifier made of bytes has two characters per
    byte. *)
Theorem uid_string_length (uid : list Z) :
  Forall (fun b => 0 <= b < 256) uid ->
  String.length (RFID.uidToString uid) = (2 * length uid)%nat.
Proof.
  induction 1 as [| b uid Hb _ IH]; [reflexivity |].
  rewrite uid_string_cons, string_length_append, IH.
  destruct (byte_format b Hb) as (c1 & c2 & _ & _ & E & _).
  rewrite E. cbn [String.length length]. lia.
Qed.

Lemma uid_string_length_witness :
  Forall (fun b => 0 <= b < 256) [4; 255; 0; 18] /\
  String.length (RFID.uidToString [4; 255; 0; 18]) = (2 * 4)%nat.
Proof.
  assert (Forall (fun b => 0 <= b < 256) [4; 255; 0; 18]) as H
      by (repeat constructor; lia).
  split; [exact H |]. apply (uid_string_length [4; 255; 0; 18] H).
Defined.

Lemma parse_pairs_byte (b : Z) (s : String.string) (l : list Z) :
  0 <= b < 256 ->
  RFID.parse_pairs s = Some l ->
  RFID.parse_pairs (String.append (RFID.format_02X b) s) = Some (b :: l).
Proof.
  intros Hb Hs.
  destruct (byte_format b Hb) as (c1 & c2 & x & y & E & H1 & H2 & Hxy).
  rewrite E. cbn [String.append RFID.parse_pairs].
  rewrite H1, H2, Hs, Hxy. reflexivity.
Qed.

Lemma parse_pairs_append (a b : String.string) (la lb : list Z) :
  RFID.parse_pairs a = Some la ->
  RFID.parse_pairs b = Some lb ->
  RFID.parse_pairs (String.append a b) = Some (la ++ lb).
Proof.
  intros Ha Hb.
  assert (forall (n : nat) (a : String.string) (la : list Z),
             (String.length a <= n)%nat ->
             RFID.parse_pairs a = Some la ->
             RFID.parse_pairs (String.append a b) = Some (la ++ lb)) as G.
  { clear a la Ha. induction n as [| n IH]; intros a la Hn Ha.
    - destruct a; cbn in Hn; [| lia].
      cbn in Ha. injection Ha as <-. exact Hb.
    - destruct a as [| c1 [| c2 rest]]; cbn [RFID.parse_pairs] in Ha.
      + injection Ha as <-. exact Hb.
      + discriminate.
      + destruct (RFID.hex_value c1) as [x |] eqn:E1; try discriminate.
        destruct (RFID.hex_value c2) as [y |] eqn:E2; try discriminate.
        destruct (RFID.parse_pairs rest) as [l |] eqn:E; try discriminate.
        injection Ha as <-. cbn [String.append RFID.parse_pairs].
        rewrite E1, E2, (IH rest l); [reflexivity | cbn in Hn; lia | exact E]. }
  apply (G (String.length a) a la); [lia | exact Ha].
Qed.

(** X17. No byte is lost: reading the digit pairs of the string from the
    back gives the identifier again, so identifiers made of bytes that
    differ have different strings. *)
Theorem uid_string_round_trip (uid : list Z) :
  Forall (fun b => 0 <= b < 256) uid ->
  RFID.parse_uid (RFID.uidToString uid) = Some uid.
Proof.
  intros H. unfold RFID.parse_uid.
  assert (RFID.parse_pairs (RFID.uidToString uid) = Some (rev uid)) as E.
  { induction H as [| b uid Hb _ IH]; [reflexivity |].
    rewrite uid_string_cons. cbn [rev].
    apply parse_pairs_append; [exact IH |].
    rewrite <- (string_append_nil_r (RFID.format_02X b)).
    apply parse_pairs_byte; [exact Hb | reflexivity]. }
  rewrite E. cbn. rewrite rev_involutive. reflexivity.
Qed.

Lemma uid_string_round_trip_witness :
  Forall (fun b => 0 <= b < 256) [222; 173; 190; 239; 7] /\
  RFID.parse_uid (RFID.uidToString [222; 173; 190; 239; 7])
  = Some [222; 173; 190; 239; 7].
Proof.
  assert (Forall (fun b => 0 <= b < 256) [222; 173; 190; 239; 7]) as H
      by (repeat constructor; lia).
  split; [exact H |]. apply (uid_string_round_trip _ H).
Defined.

(** Numbers that are not bytes can collide. *)
Example uid_string_collision :
  RFID.uidToString [4096] = RFID.uidToString [0; 16].
Proof. reflexivity. Qed.

(** * The stepper motor *)

Lemma list_index_nat {A : Type} (l : list A) (k : nat) :
  list_index l (Z.of_nat k)
  = match nth_error l k with
    | Some x => inr x
    | None => inl IndexError
    end.
Proof.
  unfold list_index.
  destruct (Z.ltb_spec (Z.of_nat k) 0) as [H | _]; [lia |].
  destruct (Z.ltb_spec (Z.of_nat k) 0) as [H | _]; [lia |].
  cbn [orb]. rewrite Nat2Z.id.
  destruct (Z.leb_spec (Z.of_nat (length l)) (Z.of_nat k)) as [H | H];
    [| reflexivity].
  assert (nth_error l k = None) as -> by (apply nth_error_None; lia).
  reflexivity.
Qed.

Lemma set_level_length (i : nat) (v : Z) (l : list Z) :
  length (StepMotor.set_level i v l) = length l.
Proof.
  revert i. induction l as [| x l IH]; intros [| i]; cbn; auto.
Qed.

Lemma firstn_set_level (k : nat) (v : Z) (l : list Z) :
  (k < length l)%nat ->
  firstn (S k) (StepMotor.set_level k v l) = firstn k l ++ [v].
Proof.
  revert k. induction l as [| x l IH]; intros k Hk; cbn in Hk; [lia |].
  destruct k as [| k]; [reflexivity |].
  cbn [StepMotor.set_level]. rewrite firstn_cons, IH by lia. reflexivity.
Qed.

Lemma skipn_split {A : Type} (k : nat) (l : list A) :
  (k < length l)%nat ->
  exists x, nth_error l k = Some x /\ skipn k l = x :: skipn (S k) l.
Proof.
  revert k. induction l as [| y l IH]; intros k Hk; cbn in Hk; [lia |].
  destruct k as [| k].
  - exists y. split; reflexivity.
  - destruct (IH k) as (x & E1 & E2); [lia |]. exists x. split; assumption.
Qed.

(** The inner loop from index [k] on, with [m] pins still to write. *)
Lemma drive_from (step : list Z) (m : nat) :
  forall (k : nat) (b : StepMotor.board),
    length (StepMotor.levels b) = (k + m)%nat ->
    (k + m <= length step)%nat ->
    StepMotor.drive (seq k m) step b
    = Completed
        (StepMotor.mkBoard
           (firstn k (StepMotor.levels b)
            ++ map pin_level (firstn m (skipn k step)))
           (StepMotor.printed b + m)).
Proof.
  induction m as [| m IH]; intros k [l n] Hl Hs; cbn [StepMotor.levels] in *.
  - cbn. rewrite app_nil_r, Nat.add_0_r, firstn_all2 by lia. reflexivity.
  - cbn [seq StepMotor.drive]. rewrite list_index_nat.
    destruct (skipn_split k step) as (x & E1 & E2); [lia |].
    rewrite E1, IH.
    + cbn [StepMotor.levels StepMotor.printed].
      rewrite firstn_set_level by lia. rewrite E2. cbn [firstn map].
      rewrite <- app_assoc. cbn [app]. f_equal. f_equal. lia.
    + cbn [StepMotor.levels]. rewrite set_level_length. lia.
    + lia.
Qed.

(** X18. The inner loop of the stepper program overwrites every pin:
    when the step has a value for each pin, the levels afterwards are
    those of the step, whatever they were before, and one line was
    printed per pin. *)
Theorem step_drives_every_pin (step : list Z) (b : StepMotor.board) :
  (length (StepMotor.levels b) <= length step)%nat ->
  StepMotor.apply_step step b
  = Completed
      (StepMotor.mkBoard
         (map pin_level (firstn (length (StepMotor.levels b)) step))
         (StepMotor.printed b + length (StepMotor.levels b))).
Proof.
  intros H. unfold StepMotor.apply_step.
  rewrite (drive_from step _ 0 b); [reflexivity | reflexivity | exact H].
Qed.

Lemma step_drives_every_pin_witness :
  let b := StepMotor.mkBoard [1; 1; 0; 1] 5 in
  (length (StepMotor.levels b) <= length [0; 7; 0; 0; 9])%nat /\
  StepMotor.apply_step [0; 7; 0; 0; 9] b
  = Completed (StepMotor.mkBoard [0; 1; 0; 0] 9).
Proof.
  intros b. split; [cbn; lia |].
  apply (step_drives_every_pin [0; 7; 0; 0; 9] b). cbn. lia.
Defined.

(** A step that is shorter than the list of pins raises [IndexError]
    after the pins it has values for were written. *)
Example short_step_raises :
  StepMotor.apply_step [0; 1] (StepMotor.mkBoard [1; 0; 0; 0] 0)
  = Failed IndexError (StepMotor.mkBoard [0; 1; 0; 0] 2).
Proof. reflexivity. Qed.

Lemma cycle_result (b : StepMotor.board) :
  length (StepMotor.levels b) = 4%nat ->
  StepMotor.cycle StepMotor.sequence b
  = Completed (StepMotor.mkBoard [0; 0; 0; 1] (StepMotor.printed b + 16)).
Proof.
  intros H. destruct b as [[| x1 [| x2 [| x3 [| x4 [| x5 l]]]]] n];
    cbn in H; try discriminate.
  vm_compute StepMotor.cycle. cbn [StepMotor.printed].
  f_equal. f_equal. lia.
Qed.

(** X19. Whatever the four pins showed at the start, after any positive
    number [n] of rounds of the sequence only [IN4] is high, no step has
    raised, and [16 * n] lines were printed. *)
Theorem rounds_end_on_last_step (n : nat) (b : StepMotor.board) :
  length (StepMotor.levels b) = 4%nat ->
  (0 < n)%nat ->
  StepMotor.rounds n b
  = Completed (StepMotor.mkBoard [0; 0; 0; 1]
                                 (StepMotor.printed b + 16 * n)).
Proof.
  revert b. induction n as [| n IH]; intros b H Hn; [lia |].
  cbn [StepMotor.rounds]. rewrite (cycle_result b H).
  destruct n as [| n].
  - cbn [StepMotor.rounds]. do 2 apply f_equal. lia.
  - rewrite IH; [| reflexivity | lia].
    cbn [StepMotor.printed]. do 2 apply f_equal. lia.
Qed.

Lemma rounds_end_on_last_step_witness :
  let b := StepMotor.mkBoard [1; 1; 1; 1] 0 in
  length (StepMotor.levels b) = 4%nat /\ (0 < 3)%nat /\
  StepMotor.rounds 3 b = Completed (StepMotor.mkBoard [0; 0; 0; 1] 48).
Proof.
  intros b. split; [reflexivity |]. split; [lia |].
  apply (rounds_end_on_last_step 3 b); [reflexivity | lia].
Defined.

(** * The calculator *)

(** ** The tables and the main loop *)

Lemma tables_checked : Calculator.tables_ok = true.
Proof. vm_compute. reflexivity. Qed.

Lemma in_range_nat (lo len : nat) (z : Z) :
  Z.of_nat lo <= z < Z.of_nat (lo + len) ->
  In z (map Z.of_nat (seq lo len)).
Proof.
  intros H. apply in_map_iff. exists (Z.to_nat z). split; [lia |].
  apply in_seq. lia.
Qed.

Lemma table_cell (table : list (String.string * list String.string))
    (s r : Z) :
  In table value_tables -> 1 <= s <= 20 -> 0 <= r <= 6 ->
  Calculator.table_cell_ok table s r = true.
Proof.
  intros Ht Hs Hr. pose proof tables_checked as H.
  unfold Calculator.tables_ok in H. rewrite forallb_forall in H.
  specialize (H table Ht). rewrite forallb_forall in H.
  specialize (H s (in_range_nat 1 20 s ltac:(lia))).
  rewrite forallb_forall in H.
  exact (H r (in_range_nat 0 7 r ltac:(lia))).
Qed.

Lemma table_value_ok (table : list (String.string * list String.string))
    (g : Calculator.globals) :
  In table value_tables ->
  1 <= Calculator.sr g <= 20 -> 0 <= Calculator.rang g <= 6 ->
  exists v, Calculator.table_value table g = inr v
            /\ Calculator.displayable v = true.
Proof.
  intros Ht Hs Hr. pose proof (table_cell table _ _ Ht Hs Hr) as H.
  unfold Calculator.table_cell_ok in H. unfold Calculator.table_value.
  destruct (Calculator.dict_get table (Calculator.str (Calculator.sr g)))
    as [e | row]; [discriminate |].
  destruct (list_index row (Calculator.rang g)) as [e | v]; [discriminate |].
  exists v. split; [reflexivity | exact H].
Qed.


Lemma lookup_when_ok (k : Z)
    (table : list (String.string * list String.string))
    (next : Calculator.globals -> attempt Calculator.globals)
    (g : Calculator.globals) :
  In table value_tables -> loop_invariant g ->
  exists g',
    Calculator.lookup_when k table next g = next g'
    /\ loop_invariant g'
    /\ Calculator.sr g' = Calculator.sr g
    /\ Calculator.rang g' = Calculator.rang g
    /\ Calculator.fav g' = Calculator.fav g
    /\ Calculator.mode g' = Calculator.mode g.
Proof.
  intros Ht (Hs & Hr & Hv). unfold Calculator.lookup_when.
  destruct (Calculator.fav g =? k).
  - destruct (table_value_ok table g Ht Hs Hr) as (v & E & Dv).
    rewrite E. exists (Calculator.with_val v g). cbn.
    unfold loop_invariant. cbn. tauto.
  - exists g. unfold loop_invariant. tauto.
Qed.


Lemma loop_body_completes (i : Calculator.readings) (g : Calculator.globals) :
  1 <= Calculator.knob_l i <= 20 ->
  0 <= Calculator.knob_r i <= 6 ->
  Calculator.displayable (Calculator.val g) = true ->
  exists g',
    Calculator.loop_body i g = Completed g'
    /\ Calculator.sr g' = Calculator.knob_l i
    /\ Calculator.rang g' = Calculator.knob_r i
    /\ Calculator.displayable (Calculator.val g') = true
    /\ (-1 <= Calculator.fav g <= 1 -> -1 <= Calculator.fav g' <= 1)
    /\ (Calculator.mode g = 1 \/ Calculator.mode g = -1 ->
        Calculator.mode g' = 1 \/ Calculator.mode g' = -1).
Proof.
  intros Hl Hr Hv. unfold Calculator.loop_body.
  match goal with
  | |- context [Calculator.lookup_when (-1) _ _ ?g0] => set (g1 := g0)
  end.
  assert (loop_invariant g1
          /\ Calculator.sr g1 = Calculator.knob_l i
          /\ Calculator.rang g1 = Calculator.knob_r i
          /\ (-1 <= Calculator.fav g <= 1 -> -1 <= Calculator.fav g1 <= 1)
          /\ (Calculator.mode g = 1 \/ Calculator.mode g = -1 ->
              Calculator.mode g1 = 1 \/ Calculator.mode g1 = -1))
    as (I1 & S1 & R1 & F1 & M1).
  { subst g1. unfold loop_invariant.
    destruct (negb (Calculator.sw_r_1 i =? Calculator.sw_r_oldV g));
      destruct (negb (Calculator.sw_l_1 i =? _));
      cbn [Calculator.sr Calculator.rang Calculator.fav Calculator.val
           Calculator.mode Calculator.sw_r_oldV Calculator.sw_l_oldV];
      repeat split; try assumption; try lia;
      try (destruct (Calculator.sw_l_2 i >? 0);
           match goal with
           | |- context [if ?c >? 1 then _ else _] =>
               destruct (Z.gtb_spec c 1)
           end; lia);
      try (destruct (Calculator.sw_r_2 i >? 0); lia). }
  destruct (lookup_when_ok (-1) Calculator.valuesDictDefav
              (Calculator.lookup_when 0 Calculator.valuesDictNeutre
                 (Calculator.lookup_when 1 Calculator.valuesDictFav
                    (fun g => Completed g))) g1)
    as (g2 & E2 & I2 & S2 & R2 & F2 & M2);
    [cbn; tauto | exact I1 |].
  destruct (lookup_when_ok 0 Calculator.valuesDictNeutre
              (Calculator.lookup_when 1 Calculator.valuesDictFav
                 (fun g => Completed g)) g2)
    as (g3 & E3 & I3 & S3 & R3 & F3 & M3);
    [cbn; tauto | exact I2 |].
  destruct (lookup_when_ok 1 Calculator.valuesDictFav
              (fun g => Completed g) g3)
    as (g4 & E4 & I4 & S4 & R4 & F4 & M4);
    [cbn; tauto | exact I3 |].
  exists g4. rewrite E2, E3, E4.
  destruct I4 as (_ & _ & D4).
  rewrite S4, S3, S2, R4, R3, R2, F4, F3, F2, M4, M3, M2.
  repeat split; try assumption; try (apply F1; assumption);
    try (apply M1; assumption).
Qed.

(** X20. One pass of the main loop with the left knob between 1 and 20
    and the right knob between 0 and 6 raises neither [KeyError] nor
    [IndexError], whatever the switches read: it stores the two knob
    values, leaves a value that the display can show, and keeps [fav]
    among -1, 0, 1 and [mode] among -1, 1. *)
Theorem main_loop_pass (i : Calculator.readings) (g : Calculator.globals) :
  1 <= Calculator.knob_l i <= 20 ->
  0 <= Calculator.knob_r i <= 6 ->
  Calculator.displayable (Calculator.val g) = true ->
  exists g',
    Calculator.loop_body i g = Completed g'
    /\ Calculator.sr g' = Calculator.knob_l i
    /\ Calculator.rang g' = Calculator.knob_r i
    /\ Calculator.displayable (Calculator.val g') = true
    /\ (-1 <= Calculator.fav g <= 1 -> -1 <= Calculator.fav g' <= 1)
    /\ (Calculator.mode g = 1 \/ Calculator.mode g = -1 ->
        Calculator.mode g' = 1 \/ Calculator.mode g' = -1).
Proof. exact (loop_body_completes i g). Qed.

Lemma main_loop_pass_witness :
  let i := Calculator.mkReadings 1 1 1 1 1 1 17 5 in
  let g := Calculator.initial_globals 4 2 0 0 in
  1 <= Calculator.knob_l i <= 20 /\ 0 <= Calculator.knob_r i <= 6 /\
  Calculator.displayable (Calculator.val g) = true /\
  exists g',
    Calculator.loop_body i g = Completed g'
    /\ Calculator.sr g' = 17 /\ Calculator.rang g' = 5
    /\ Calculator.displayable (Calculator.val g') = true.
Proof.
  intros i g.
  assert (1 <= Calculator.knob_l i <= 20) as Hl by (cbn; lia).
  assert (0 <= Calculator.knob_r i <= 6) as Hr by (cbn; lia).
  split; [exact Hl |]. split; [exact Hr |]. split; [reflexivity |].
  destruct (main_loop_pass i g Hl Hr eq_refl) as (g' & E & S & R & D & _).
  exists g'. repeat split; assumption.
Defined.

Lemma to_int_not_nil (z : Z) :
  Z.to_int z <> Decimal.Pos Decimal.Nil /\ Z.to_int z <> Decimal.Neg Decimal.Nil.
Proof.
  destruct z as [| q | q]; cbn; split; intros H; try discriminate;
    injection H as H; exact (DecimalPos.Unsigned.to_uint_nonnil q H).
Qed.

Lemma str_injective (a b : Z) : Calculator.str a = Calculator.str b -> a = b.
Proof.
  intros H. unfold Calculator.str in H.
  apply (f_equal DecimalString.NilZero.int_of_string) in H.
  destruct (to_int_not_nil a) as [A1 A2]. destruct (to_int_not_nil b) as [B1 B2].
  rewrite !DecimalString.NilZero.isi in H by assumption.
  injection H as H.
  rewrite <- (DecimalZ.of_to a), <- (DecimalZ.of_to b), H. reflexivity.
Qed.

Lemma dict_get_missing {V : Type} (d : list (String.string * V))
    (key : String.string) :
  ~ In key (map fst d) -> Calculator.dict_get d key = inl (KeyError key).
Proof.
  intros H. unfold Calculator.dict_get.
  destruct (find (fun kv => String.eqb (fst kv) key) d) as [kv |] eqn:E;
    [| reflexivity].
  apply find_some in E. destruct E as [Hin Heq].
  apply String.eqb_eq in Heq. exfalso. apply H. rewrite <- Heq.
  apply in_map. exact Hin.
Qed.

Lemma table_keys (table : list (String.string * list String.string)) :
  In table value_tables ->
  map fst table = map Calculator.str (map Z.of_nat (seq 1 20))
  /\ rows_ok table = true.
Proof.
  intros H. cbn in H.
  repeat (destruct H as [H | H]); try contradiction; subst table;
    split; vm_compute; reflexivity.
Qed.

Lemma list_index_outside {A : Type} (l : list A) (i : Z) :
  i < - Z.of_nat (length l) \/ Z.of_nat (length l) <= i ->
  list_index l i = inl IndexError.
Proof.
  intros H. unfold list_index.
  set (j := if i <? 0 then i + Z.of_nat (length l) else i).
  assert (j < 0 \/ Z.of_nat (length l) <= j) as Hj
      by (subst j; destruct (Z.ltb_spec i 0); lia).
  destruct (Z.ltb_spec j 0); [reflexivity |].
  destruct (Z.leb_spec (Z.of_nat (length l)) j); [reflexivity | lia].
Qed.

Lemma list_index_inside {A : Type} (l : list A) (i : Z) :
  - Z.of_nat (length l) <= i < Z.of_nat (length l) ->
  exists x, list_index l i = inr x.
Proof.
  intros H. unfold list_index.
  set (j := if i <? 0 then i + Z.of_nat (length l) else i).
  assert (0 <= j < Z.of_nat (length l)) as Hj
      by (subst j; destruct (Z.ltb_spec i 0); lia).
  destruct (Z.ltb_spec j 0); [lia |].
  destruct (Z.leb_spec (Z.of_nat (length l)) j); [lia |]. cbn [orb].
  destruct (nth_error l (Z.to_nat j)) as [x |] eqn:E; [eauto |].
  apply nth_error_None in E. lia.
Qed.


(** X21. The tables cover exactly the values that the knobs can take. A
    lookup [table[str(sr)][rang]] in any of the three tables raises
    [KeyError] when [sr] is below 1 or above 20, raises [IndexError]
    when [sr] is a key and [rang] is below -7 or above 6, and succeeds
    otherwise; negative subscripts down to -7 count from the end of the
    row. *)
Theorem table_lookup_domain
    (table : list (String.string * list String.string))
    (g : Calculator.globals) :
  In table value_tables ->
  (Calculator.sr g < 1 \/ 20 < Calculator.sr g ->
   Calculator.table_value table g
   = inl (KeyError (Calculator.str (Calculator.sr g))))
  /\ (1 <= Calculator.sr g <= 20 ->
      Calculator.rang g < -7 \/ 6 < Calculator.rang g ->
      Calculator.table_value table g = inl IndexError)
  /\ (1 <= Calculator.sr g <= 20 ->
      -7 <= Calculator.rang g <= 6 ->
      exists v, Calculator.table_value table g = inr v).
Proof.
  intros Ht. destruct (table_keys table Ht) as [Hk Hrows].
  unfold Calculator.table_value.
  assert (1 <= Calculator.sr g <= 20 ->
          exists row,
            Calculator.dict_get table (Calculator.str (Calculator.sr g))
            = inr row /\ length row = 7%nat) as Hrow.
  { intros Hs. unfold rows_ok in Hrows. rewrite forallb_forall in Hrows.
    specialize (Hrows _ (in_range_nat 1 20 (Calculator.sr g) ltac:(lia))).
    destruct (Calculator.dict_get table _) as [e | row]; [discriminate |].
    exists row. split; [reflexivity |]. apply Nat.eqb_eq. exact Hrows. }
  split; [| split].
  - intros Hs. rewrite dict_get_missing; [reflexivity |].
    rewrite Hk. intros Hin. apply in_map_iff in Hin.
    destruct Hin as (k & Ek & Hin). apply str_injective in Ek. subst k.
    apply in_map_iff in Hin. destruct Hin as (n & En & Hn).
    apply in_seq in Hn. lia.
  - intros Hs Hr. destruct (Hrow Hs) as (row & E & L). rewrite E.
    apply list_index_outside. rewrite L. lia.
  - intros Hs Hr. destruct (Hrow Hs) as (row & E & L). rewrite E.
    apply list_index_inside. rewrite L. lia.
Qed.

Lemma table_lookup_domain_witness :
  let g := Calculator.mkGlobals 21 2 0 String.EmptyString (-1) 0 0 in
  In Calculator.valuesDictNeutre value_tables /\
  (Calculator.sr g < 1 \/ 20 < Calculator.sr g) /\
  Calculator.table_value Calculator.valuesDictNeutre g
  = inl (KeyError (Calculator.str 21)).
Proof.
  intros g.
  assert (In Calculator.valuesDictNeutre value_tables) as Ht
      by (cbn; tauto).
  assert (Calculator.sr g < 1 \/ 20 < Calculator.sr g) as Hs
      by (right; cbn; lia).
  split; [exact Ht |]. split; [exact Hs |].
  exact (proj1 (table_lookup_domain Calculator.valuesDictNeutre g Ht) Hs).
Defined.

Section Knobs.
Context {World : Type}.

Lemma run_end_bounded_value (samples : list (bool * bool))
    (rw : Rotary World * World) :
  _range_mode (fst rw) = Rotary.RANGE_BOUNDED ->
  _min_val (fst rw) <= _value (fst rw) <= _max_val (fst rw) ->
  _min_val (fst rw) <= _value (fst (Rotary.run_end samples rw))
  <= _max_val (fst rw).
Proof.
  revert rw. induction samples as [| s samples IH]; intros [r w] Hm Hv;
    [exact Hv |].
  change (Rotary.run_end (s :: samples) (r, w))
    with (Rotary.run_end samples (Rotary.on_edge s (r, w))).
  cbn [fst] in *.
  pose proof (on_edge_config s r w) as C. cbv zeta in C.
  destruct C as (Cmin & Cmax & _ & _ & Cmode & _).
  rewrite <- Cmin, <- Cmax. apply IH.
  - rewrite Cmode. exact Hm.
  - rewrite Cmin, Cmax, on_edge_bounded by exact Hm.
    cbn [fst _value Rotary.with_value]. apply bound_in_range. lia.
Qed.

End Knobs.

(** X22. The bounds of the two knobs fit the tables. Whatever edges the
    knobs see before and after the program seeds them with
    [r_l.set(value=4)] and [r_r.set(value=2)], a pass of the main loop
    that reads their values completes, and leaves variables that the
    display can show. *)
Theorem knobs_stay_in_the_tables
    (before_l after_l before_r after_r : list (bool * bool))
    (i : Calculator.readings) (g : Calculator.globals) :
  Calculator.displayable (Calculator.val g) = true ->
  Calculator.knob_l i
  = Rotary.value
      (fst (Rotary.run_end after_l
              (Rotary.set (Some 4) None None None None None
                          (fst (Rotary.run_end before_l (r_l, tt))), tt))) ->
  Calculator.knob_r i
  = Rotary.value
      (fst (Rotary.run_end after_r
              (Rotary.set (Some 2) None None None None None
                          (fst (Rotary.run_end before_r (r_r, tt))), tt))) ->
  exists g', Calculator.loop_body i g = Completed g' /\ loop_invariant g'.
Proof.
  intros Hv Hl Hr.
  assert (forall (r0 : Rotary unit) (v : Z) (before after : list (bool * bool)),
             _range_mode r0 = Rotary.RANGE_BOUNDED ->
             _min_val r0 <= v <= _max_val r0 ->
             _min_val r0
             <= Rotary.value
                  (fst (Rotary.run_end after
                          (Rotary.set (Some v) None None None None None
                             (fst (Rotary.run_end before (r0, tt))), tt)))
             <= _max_val r0) as K.
  { intros r0 v before after Hm Hb.
    pose proof (run_end_config before (r0, tt)) as C. cbv zeta in C.
    cbn [fst] in C. destruct C as (_ & _ & _ & _ & Cm & Cmin & Cmax).
    set (r1 := fst (Rotary.run_end before (r0, tt))) in *.
    pose proof (run_end_bounded_value after
                  (Rotary.set (Some v) None None None None None r1, tt))
      as B.
    cbn [fst Rotary.set Rotary._hal_enable_irq Rotary._hal_disable_irq
         Rotary.or_keep _range_mode _min_val _max_val _value] in B.
    rewrite Cm, Cmin, Cmax in B. unfold Rotary.value. apply B; assumption. }
  pose proof (K r_l 4 before_l after_l eq_refl) as Kl.
  pose proof (K r_r 2 before_r after_r eq_refl) as Kr.
  rewrite <- Hl in Kl. rewrite <- Hr in Kr.
  change (_min_val r_l) with 1 in Kl. change (_max_val r_l) with 20 in Kl.
  change (_min_val r_r) with 0 in Kr. change (_max_val r_r) with 6 in Kr.
  destruct (loop_body_completes i g) as (g' & E & S & R & D & _);
    [apply Kl; lia | apply Kr; lia | exact Hv |].
  exists g'. split; [exact E |].
  unfold loop_invariant. rewrite S, R.
  split; [apply Kl; lia |]. split; [apply Kr; lia | exact D].
Qed.

Lemma knobs_stay_in_the_tables_witness :
  let i :=
    Calculator.mkReadings 0 0 0 0 0 0
      (Rotary.value
         (fst (Rotary.run_end (detents 30 cw_detent)
                 (Rotary.set (Some 4) None None None None None
                    (fst (Rotary.run_end ccw_detent (r_l, tt))), tt))))
      (Rotary.value
         (fst (Rotary.run_end (detents 9 ccw_detent)
                 (Rotary.set (Some 2) None None None None None
                    (fst (Rotary.run_end [] (r_r, tt))), tt)))) in
  let g := Calculator.initial_globals 4 2 0 0 in
  Calculator.displayable (Calculator.val g) = true /\
  exists g', Calculator.loop_body i g = Completed g' /\ loop_invariant g'.
Proof.
  intros i g. split; [reflexivity |].
  apply (knobs_stay_in_the_tables ccw_detent (detents 30 cw_detent)
           [] (detents 9 ccw_detent) i g); reflexivity.
Defined.

(** ** The display *)

Lemma writeDigit_result (seg : list Z) (d : Z) (p : Calculator.panel) :
  length seg = 7%nat ->
  exists p',
    Calculator.writeDigit seg d p = (inr tt, p')
    /\ Calculator.timers p' = Calculator.timers p
    /\ (forall q, In q digit_pins -> Calculator.level p' q = Calculator.level p q)
    /\ Calculator.segments p' = map pin_level seg
    /\ Calculator.level p' Calculator.dp = pin_level d.
Proof.
  intros H.
  destruct seg as [| s0 [| s1 [| s2 [| s3 [| s4 [| s5 [| s6 [| s7 seg]]]]]]]];
    try discriminate.
  eexists. split; [reflexivity |]. split; [reflexivity |].
  split; [| split; reflexivity].
  intros q Hq. cbn in Hq.
  repeat (destruct Hq as [Hq | Hq]); try contradiction; subst q; reflexivity.
Qed.

Lemma shows_key_entry (key : String.string) :
  Calculator.shows_key key = true ->
  exists seg, Calculator.dict_get Calculator.segDict key = inr seg
              /\ length seg = 7%nat.
Proof.
  unfold Calculator.shows_key.
  destruct (Calculator.dict_get Calculator.segDict key) as [e | seg];
    [discriminate |].
  intros H. exists seg. split; [reflexivity |]. apply Nat.eqb_eq. exact H.
Qed.

Lemma write_key_segments_only (key : String.string) (d : Z) :
  Calculator.shows_key key = true ->
  writes_segments_only (Calculator.write_key key d).
Proof.
  intros H p. destruct (shows_key_entry key H) as (seg & E & L).
  destruct (writeDigit_result seg d p L) as (p' & Ew & T & D & _).
  exists p'. unfold Calculator.write_key, Calculator.bind, Calculator.lift.
  rewrite E. auto.
Qed.


Lemma displayable_char (s : String.string) (i : Z) :
  In i [0; 1; 2; 3] -> Calculator.displayable s = true ->
  char_shown s i = true.
Proof.
  intros Hi H. unfold Calculator.displayable in H.
  rewrite forallb_forall in H. exact (H i Hi).
Qed.

Lemma write_char_segments_only (s : String.string) (i d : Z) :
  char_shown s i = true ->
  writes_segments_only (Calculator.write_char s i d).
Proof.
  intros H p. unfold char_shown in H.
  destruct (Calculator.string_index s i) as [e | key] eqn:E; [discriminate |].
  destruct (write_key_segments_only key d H p) as (p' & Ew & T & D).
  exists p'. unfold Calculator.write_char, Calculator.bind, Calculator.lift.
  rewrite E. auto.
Qed.

Lemma ret_segments_only : writes_segments_only (Calculator.ret tt).
Proof. intros p. exists p. auto. Qed.

Lemma when_segments_only (b : bool) (m : Calculator.action unit) :
  (b = true -> writes_segments_only m) ->
  writes_segments_only (Calculator.when b m).
Proof.
  intros H. destruct b; cbn; [apply H; reflexivity | apply ret_segments_only].
Qed.

Lemma seq_segments_only (m1 m2 : Calculator.action unit) :
  writes_segments_only m1 -> writes_segments_only m2 ->
  writes_segments_only (Calculator.bind m1 (fun _ => m2)).
Proof.
  intros H1 H2 p. destruct (H1 p) as (p1 & E1 & T1 & D1).
  destruct (H2 p1) as (p2 & E2 & T2 & D2).
  exists p2. unfold Calculator.bind. rewrite E1, E2.
  split; [reflexivity |]. split; [congruence |].
  intros q Hq. rewrite D2, D1; auto.
Qed.


Lemma knob_digits_checked :
  forallb knob_digits_shown (map Z.of_nat (seq 0 100)) = true.
Proof. vm_compute. reflexivity. Qed.

Lemma rang_digits_checked :
  forallb rang_digit_shown (map Z.of_nat (seq 0 10)) = true.
Proof. vm_compute. reflexivity. Qed.

Lemma knob_digits (s : Z) :
  0 <= s <= 99 ->
  char_shown (Calculator.format_02 s) 0 = true
  /\ char_shown (Calculator.format_02 s) 1 = true.
Proof.
  intros H. pose proof knob_digits_checked as C.
  rewrite forallb_forall in C.
  specialize (C s (in_range_nat 0 100 s ltac:(lia))).
  apply andb_true_iff in C. exact C.
Qed.

Lemma rang_digit (r : Z) :
  0 <= r <= 9 -> Calculator.shows_key (Calculator.str r) = true.
Proof.
  intros H. pose proof rang_digits_checked as C.
  rewrite forallb_forall in C.
  exact (C r (in_range_nat 0 10 r ltac:(lia))).
Qed.

Lemma display_prefix (v1 v2 v3 v4 : Z) (body : Calculator.action unit)
    (p : Calculator.panel) :
  writes_segments_only body ->
  exists p',
    Calculator.bind (Calculator.timer_init (Calculator.one_shot_clear 4))
      (fun _ => Calculator.bind (Calculator.pin_value Calculator.d1 v1)
      (fun _ => Calculator.bind (Calculator.pin_value Calculator.d2 v2)
      (fun _ => Calculator.bind (Calculator.pin_value Calculator.d3 v3)
      (fun _ => Calculator.bind (Calculator.pin_value Calculator.d4 v4)
      (fun _ => body))))) p
    = (inr tt, p')
    /\ Calculator.timers p'
       = Calculator.timers p ++ [Calculator.one_shot_clear 4]
    /\ map (Calculator.level p') digit_pins = map pin_level [v1; v2; v3; v4].
Proof.
  intros Hb.
  unfold Calculator.bind, Calculator.timer_init, Calculator.pin_value.
  match goal with
  | |- context [body ?q] => destruct (Hb q) as (p' & E & T & D); rewrite E
  end.
  exists p'. split; [reflexivity |]. split; [exact T |].
  unfold digit_pins. cbn [map].
  rewrite !D by (cbn; tauto). reflexivity.
Qed.


(** X23. Under the invariant of the main loop each of the four display
    callbacks completes without [KeyError] or [IndexError], in either
    mode and for every [fav]; afterwards exactly its own digit is
    selected (its pin is low, the other three are high), and one
    one-shot timer for [clear] has been requested. *)
Theorem display_selects_one_digit (digit : Calculator.pin)
    (g : Calculator.globals) (p : Calculator.panel) :
  In digit digit_pins ->
  loop_invariant g ->
  exists p',
    Calculator.display digit g p = (inr tt, p')
    /\ (forall q, In q digit_pins ->
          Calculator.level p' q
          = if Calculator.pin_eqb q digit then 0 else 1)
    /\ Calculator.timers p'
       = Calculator.timers p ++ [Calculator.one_shot_clear 4].
Proof.
  intros Hd (Hs & Hr & Hv).
  destruct (knob_digits (Calculator.sr g) ltac:(lia)) as [K0 K1].
  pose proof (rang_digit (Calculator.rang g) ltac:(lia)) as R.
  assert (forall i, In i [0; 1; 2; 3] -> char_shown (Calculator.val g) i = true)
    as V by (intros i Hi; apply displayable_char; assumption).
  assert (forall body v1 v2 v3 v4,
             writes_segments_only body ->
             map pin_level [v1; v2; v3; v4]
             = map (fun q => if Calculator.pin_eqb q digit then 0 else 1)
                   digit_pins ->
             exists p',
               Calculator.bind
                 (Calculator.timer_init (Calculator.one_shot_clear 4))
                 (fun _ => Calculator.bind (Calculator.pin_value Calculator.d1 v1)
                 (fun _ => Calculator.bind (Calculator.pin_value Calculator.d2 v2)
                 (fun _ => Calculator.bind (Calculator.pin_value Calculator.d3 v3)
                 (fun _ => Calculator.bind (Calculator.pin_value Calculator.d4 v4)
                 (fun _ => body))))) p = (inr tt, p')
               /\ (forall q, In q digit_pins ->
                     Calculator.level p' q
                     = if Calculator.pin_eqb q digit then 0 else 1)
               /\ Calculator.timers p'
                  = Calculator.timers p ++ [Calculator.one_shot_clear 4]) as G.
  { intros body v1 v2 v3 v4 Hb Hl.
    destruct (display_prefix v1 v2 v3 v4 body p Hb) as (p' & E & T & L).
    exists p'. split; [exact E |]. split; [| exact T].
    rewrite Hl in L. unfold digit_pins in L. cbn [map] in L.
    injection L as L1 L2 L3 L4.
    intros q Hq. cbn in Hq.
    repeat (destruct Hq as [Hq | Hq]); try contradiction; subst q;
      assumption. }
  cbn in Hd.
  repeat (destruct Hd as [Hd | Hd]); try contradiction; subst digit;
    cbn [Calculator.display];
    [unfold Calculator.displayD1 | unfold Calculator.displayD2
     | unfold Calculator.displayD3 | unfold Calculator.displayD4];
    apply G; try reflexivity;
    apply seq_segments_only; apply when_segments_only; intros _.
  - apply write_key_segments_only. exact R.
  - apply write_char_segments_only. apply V. cbn; tauto.
  - destruct (Calculator.fav g =? -1);
      [apply write_key_segments_only; reflexivity |].
    destruct (Calculator.fav g =? 0);
      [apply write_key_segments_only; reflexivity |].
    destruct (Calculator.fav g =? 1);
      [apply write_key_segments_only; reflexivity | apply ret_segments_only].
  - destruct (String.eqb (Calculator.val g) _);
      apply write_char_segments_only; apply V; cbn; tauto.
  - destruct (Calculator.sr g >=? 10);
      [apply write_char_segments_only; exact K0
      | apply write_key_segments_only; reflexivity].
  - destruct (String.eqb (Calculator.val g) _);
      apply write_char_segments_only; apply V; cbn; tauto.
  - apply write_char_segments_only. exact K1.
  - apply write_char_segments_only. apply V. cbn; tauto.
Qed.

Lemma display_selects_one_digit_witness :
  let g := Calculator.initial_globals 4 2 0 0 in
  let p := Calculator.mkPanel (fun _ => 1) [] in
  In Calculator.d3 digit_pins /\ loop_invariant g /\
  exists p',
    Calculator.display Calculator.d3 g p = (inr tt, p')
    /\ map (Calculator.level p') digit_pins = [1; 1; 0; 1].
Proof.
  intros g p.
  assert (In Calculator.d3 digit_pins) as Hd by (cbn; tauto).
  assert (loop_invariant g) as Hg.
  { unfold loop_invariant. cbn. repeat split; try lia; discriminate. }
  split; [exact Hd |]. split; [exact Hg |].
  destruct (display_selects_one_digit Calculator.d3 g p Hd Hg)
    as (p' & E & L & _).
  exists p'. split; [exact E |].
  unfold digit_pins. cbn [map].
  rewrite !L by (cbn; tauto). reflexivity.
Defined.


Lemma same_levels_eq (a b : list Z) : same_levels a b = true -> a = b.
Proof.
  unfold same_levels. destruct (list_eq_dec Z.eq_dec a b); [auto | discriminate].
Qed.

Lemma setup_digits_checked :
  forallb setup_digits_ok (map Z.of_nat (seq 0 100)) = true.
Proof. vm_compute. reflexivity. Qed.

Lemma rang_digit_checked :
  forallb rang_digit_ok (map Z.of_nat (seq 0 10)) = true.
Proof. vm_compute. reflexivity. Qed.


Lemma write_key_shows (key : String.string) (d : Z) :
  Calculator.shows_key key = true ->
  shows (match Calculator.dict_get Calculator.segDict key with
         | inr seg => map pin_level seg
         | inl _ => []
         end)
        (Calculator.write_key key d).
Proof.
  intros H p. destruct (shows_key_entry key H) as (seg & E & L).
  destruct (writeDigit_result seg d p L) as (p' & Ew & _ & _ & S & _).
  exists p'. unfold Calculator.write_key, Calculator.bind, Calculator.lift.
  rewrite E. auto.
Qed.

Lemma write_char_shows (s : String.string) (i d : Z) :
  char_shown s i = true ->
  shows (pattern_at s i) (Calculator.write_char s i d).
Proof.
  intros H p. unfold char_shown in H. unfold pattern_at.
  destruct (Calculator.string_index s i) as [e | key] eqn:E; [discriminate |].
  destruct (write_key_shows key d H p) as (p' & Ew & S).
  exists p'. unfold Calculator.write_char, Calculator.bind, Calculator.lift.
  rewrite E. auto.
Qed.

Lemma setup_display (v1 v2 v3 v4 : Z) (pattern : list Z)
    (m other : Calculator.action unit) (p : Calculator.panel) :
  shows pattern m ->
  exists p',
    Calculator.bind (Calculator.timer_init (Calculator.one_shot_clear 4))
      (fun _ => Calculator.bind (Calculator.pin_value Calculator.d1 v1)
      (fun _ => Calculator.bind (Calculator.pin_value Calculator.d2 v2)
      (fun _ => Calculator.bind (Calculator.pin_value Calculator.d3 v3)
      (fun _ => Calculator.bind (Calculator.pin_value Calculator.d4 v4)
      (fun _ => Calculator.bind (Calculator.when true m)
      (fun _ => Calculator.when false other)))))) p
    = (inr tt, p')
    /\ Calculator.segments p' = pattern.
Proof.
  intros Hm.
  unfold Calculator.bind, Calculator.timer_init, Calculator.pin_value,
    Calculator.when, Calculator.ret.
  match goal with
  | |- context [m ?q] => destruct (Hm q) as (p' & E & S); rewrite E
  end.
  exists p'. split; [reflexivity | exact S].
Qed.


(** X24. In setup mode the display shows the knobs in decimal: for a
    left knob value from 0 to 99 the fourth digit gets the segments of
    its units and the third digit those of its tens, or is blank below
    10; the first digit gets the segments of the right knob value, from
    0 to 9. *)
Theorem setup_mode_shows_knobs (g : Calculator.globals)
    (p : Calculator.panel) :
  Calculator.mode g = -1 ->
  0 <= Calculator.sr g <= 99 ->
  0 <= Calculator.rang g <= 9 ->
  (exists p1, Calculator.displayD1 g p = (inr tt, p1)
              /\ Calculator.segments p1 = digit_pattern (Calculator.rang g))
  /\ (exists p3, Calculator.displayD3 g p = (inr tt, p3)
                 /\ Calculator.segments p3
                    = if Calculator.sr g <? 10 then [0; 0; 0; 0; 0; 0; 0]
                      else digit_pattern (Calculator.sr g / 10))
  /\ (exists p4, Calculator.displayD4 g p = (inr tt, p4)
                 /\ Calculator.segments p4
                    = digit_pattern (Calculator.sr g mod 10)).
Proof.
  intros Hm Hs Hr.
  pose proof setup_digits_checked as C. rewrite forallb_forall in C.
  specialize (C _ (in_range_nat 0 100 (Calculator.sr g) ltac:(lia))).
  pose proof rang_digit_checked as D. rewrite forallb_forall in D.
  specialize (D _ (in_range_nat 0 10 (Calculator.rang g) ltac:(lia))).
  unfold setup_digits_ok in C. unfold rang_digit_ok in D.
  apply andb_true_iff in C. destruct C as [C C0].
  apply andb_true_iff in C. destruct C as [K C1].
  apply andb_true_iff in K. destruct K as [K0 K1].
  apply andb_true_iff in D. destruct D as [Dk Dp].
  apply same_levels_eq in C1, Dp.
  unfold Calculator.displayD1, Calculator.displayD3, Calculator.displayD4.
  rewrite Hm. change (-1 =? -1) with true. change (-1 =? 1) with false.
  split; [| split].
  - pose proof (write_key_shows _ 0 Dk) as W.
    rewrite <- Dp. unfold digit_pattern.
    destruct (shows_key_entry _ Dk) as (seg & E & _).
    rewrite E in W |- *. apply setup_display. exact W.
  - destruct (Z.ltb_spec (Calculator.sr g) 10) as [Hlt | Hge].
    + destruct (Z.geb_spec (Calculator.sr g) 10) as [H | _]; [lia |].
      apply setup_display.
      match goal with
      | |- shows _ (Calculator.write_key ?k _) =>
          exact (write_key_shows k 0 eq_refl)
      end.
    + destruct (Z.geb_spec (Calculator.sr g) 10) as [_ | H]; [| lia].
      apply same_levels_eq in C0. rewrite <- C0.
      apply setup_display. apply write_char_shows. exact K0.
  - rewrite <- C1. apply setup_display. apply write_char_shows. exact K1.
Qed.

Lemma setup_mode_shows_knobs_witness :
  let g := Calculator.initial_globals 17 5 0 0 in
  let p := Calculator.mkPanel (fun _ => 1) [] in
  Calculator.mode g = -1 /\ 0 <= Calculator.sr g <= 99 /\
  0 <= Calculator.rang g <= 9 /\
  exists p4, Calculator.displayD4 g p = (inr tt, p4)
             /\ Calculator.segments p4 = [1; 1; 1; 0; 0; 0; 0].
Proof.
  intros g p.
  assert (0 <= Calculator.sr g <= 99) as Hs by (cbn; lia).
  assert (0 <= Calculator.rang g <= 9) as Hr by (cbn; lia).
  split; [reflexivity |]. split; [exact Hs |]. split; [exact Hr |].
  exact (proj2 (proj2 (setup_mode_shows_knobs g p eq_refl Hs Hr))).
Defined.
